(** * The consensus node of the exchange: [pkg/consensus/node.go]

    A shallow embedding of the [Node] orchestrator (start and end of a
    round, routing of block proposals, construction of a node from its
    credentials) and of the fixed-width market-symbol key, together with
    the properties the specification states about them.

    Conventions.
    - [uint64] values are [N] with the wrap-around of [+] written out
      ([add64]); Go's [int] is [Z].
    - A byte is a [Z] in [0, 256); a [[]byte] is a [list Z].
    - A Go function returning [(T, error)] returns [T + string]: [inl v]
      for a nil error, [inr msg] for an error.
    - A function that may panic returns an [outcome].
    - Pointers to shared mutable objects ([*Chain], channels, cancellation
      contexts) are locations into a [World]; location [i] is the [i]-th
      allocated object of its kind.
    - [go func() {...}()] does not run its body: it adds a [goroutine] to
      the list of spawned tasks, which is run later against the world of
      that later moment. *)

From stdpp Require Import base numbers list strings relations.

Local Open Scope Z_scope.

(** ** Go runtime notions *)

Module Go.

(** Runtime panics of the embedded code. *)
Inductive panic : Type :=
| PanicError (err : string)            (* panic(err) *)
| PanicIndex (i : nat) (len : nat)     (* index out of range [i] with length len *)
| PanicNil.                            (* nil pointer dereference *)

Inductive outcome (A : Type) : Type :=
| Normal (a : A)
| Panics (p : panic).
Arguments Normal {A} a.
Arguments Panics {A} p.

Definition bind {A B} (x : outcome A) (f : A -> outcome B) : outcome B :=
  match x with
  | Normal a => f a
  | Panics p => Panics p
  end.

Definition panics {A} (x : outcome A) : Prop := exists p, x = Panics p.

Definition two64 : N := (2 ^ 64)%N.

(** [a + b] on [uint64]. *)
Definition add64 (a b : N) : N := ((a + b) mod two64)%N.

(** A location: the index of a heap object. *)
Abbreviation loc := nat (only parsing).

(** [[]byte("dex")] *)
Definition dex_bytes : list Z := [100; 101; 120].

End Go.
Export Go.

#[global] Instance outcome_bind : MBind Go.outcome := fun _ _ f x => Go.bind x f.

(** ** Keys and hashes: declarations used by node.go but made elsewhere *)

Class Keys := {
  SK : Type;                 (* serialized secret key *)
  PK : Type;
  Addr : Type;
  Hash : Type;
  SecretKey : Type;          (* bls.SecretKey *)
  zeroSK : SK;               (* the zero value of SK *)
  SK_PK : SK -> PK + string;          (* sk.PK() *)
  SK_Get : SK -> SecretKey + string;  (* sk.Get() *)
  PK_Addr : PK -> Addr;               (* pk.Addr() *)
  SHA3 : list Z -> Hash;
}.

(** [sk.MustGet()]: [Get], panicking on an error. *)
Definition SK_MustGet `{Keys} (sk : SK) : outcome SecretKey :=
  match SK_Get sk with
  | inl k => Normal k
  | inr err => Panics (PanicError err)
  end.

(** ** Data of node.go *)

Section Data.
Context `{Keys}.

(** [type NodeCredentials struct] *)
Record NodeCredentials := {
  cred_SK : SK;
  Groups : list Z;
  GroupShares : list SK;
}.

Definition zeroCredentials : NodeCredentials :=
  {| cred_SK := zeroSK; Groups := []; GroupShares := [] |}.

(** [type membership struct] *)
Record membership := {
  skShare : SecretKey;
  groupID : Z;
}.

(** [type Config struct]; a [time.Duration] is a number of nanoseconds. *)
Record Config := {
  BlockTime : Z;
  GroupSize : Z;
  GroupThreshold : Z;
}.

End Data.

(** ** The collaborators of the node (chain, random beacon, network, notary) *)

Class Collaborators `{Keys} := {
  Block : Type;
  State : Type;
  TxnPool : Type;
  Updater : Type;
  Network : Type;
  Peer : Type;
  BlockProposal : Type;
  RandBeaconSig : Type;
  Sig : RandBeaconSig -> list Z;           (* the field .Sig *)
  RandBeaconSigShare : Type;
  signRandBeaconShare : SecretKey -> SecretKey -> N -> Hash -> RandBeaconSigShare;
  RandT : Type;
  Rand : Hash -> RandT;
  Chain : Type;                            (* the object a *Chain points to *)
  NewChain : Block -> State -> RandT -> Config -> TxnPool -> Updater -> Chain;
  History : Chain -> list RandBeaconSig;   (* chain.RandomBeacon.History() *)
  selectCommittees : N -> list RandBeaconSig -> Z * Z * Z;
  ProposeBlock : Chain -> SK -> BlockProposal;
  Networking : Type;
  NewNetworking : Network -> loc -> Networking;
  myself : Networking -> Peer;             (* the field net.myself *)
  Notary : Type;
  NewNotary : Addr -> SecretKey -> SecretKey -> loc -> Notary;
  gobDecode : list Z -> NodeCredentials -> NodeCredentials * option string;
}.

Section Node.
Context `{Collaborators}.

(** Modelled from the spec: the body of [RandomBeacon.Committees] is not
    part of the sources at hand.  The specification gives it as a
    function of the round and of the beacon history before that round,
    [History()[0..round)], returning the ids of the random-beacon, the
    block-proposer and the notary committee. *)
Definition Committees (c : Chain) (round : N) : Z * Z * Z :=
  selectCommittees round (take (N.to_nat round) (History c)).

(** A buffered channel [chan *BlockProposal]. *)
Record chan := {
  ch_cap : nat;
  ch_buf : list BlockProposal;
}.

(** A [context.Context] made by [WithCancel] or [WithDeadline]. *)
Record context := {
  ctx_deadline : option Z;
  ctx_done : bool;
}.

(** The shared objects reachable from a node. *)
Record World := {
  chains : list Chain;
  chans : list chan;
  ctxs : list context;
  clock : Z;                (* what time.Now() returns *)
}.

(** [type Node struct]; the mutex [mu] is what makes the methods below
    atomic with respect to each other. *)
Record Node := {
  addr : Addr;
  cfg : Config;
  sk : SK;
  net : Networking;
  chain : loc;
  memberships : list membership;
  notarizeChs : list loc;
  cancelNotarize : option loc;   (* the cancel func of that context; nil is None *)
}.

(** *** NewNode *)

(** The assignment [chain.n = n] dereferences [chain]; the back
    reference it stores is not read by node.go. *)
Definition NewNode (chain : loc) (sk : SK) (net : Networking) (cfg : Config)
    (w : World) : outcome Node :=
  match SK_PK sk with
  | inr err => Panics (PanicError err)
  | inl pk =>
      let addr := PK_Addr pk in
      let n := {| addr := addr; cfg := cfg; sk := sk; net := net; chain := chain;
                  memberships := []; notarizeChs := []; cancelNotarize := None |} in
      match chains w !! chain with
      | None => Panics PanicNil
      | Some _ => Normal n
      end
  end.

(** *** MakeNode *)

Definition set_memberships (n : Node) (ms : list membership) : Node :=
  {| addr := addr n; cfg := cfg n; sk := sk n; net := net n; chain := chain n;
     memberships := ms; notarizeChs := notarizeChs n;
     cancelNotarize := cancelNotarize n |}.

(** The loop [for j := range credentials.Groups]: [rest] is
    [credentials.Groups[j:]] and [ms] is [node.memberships] so far. *)
Fixpoint MakeNode_loop (shares : list SK) (j : nat) (rest : list Z)
    (ms : list membership) : outcome (list membership) :=
  match rest with
  | [] => Normal ms
  | g :: rest' =>
      match shares !! j with
      | None => Panics (PanicIndex j (length shares))
      | Some s =>
          match SK_Get s with
          | inr err => Panics (PanicError err)
          | inl share =>
              MakeNode_loop shares (S j) rest'
                (ms ++ [{| groupID := g; skShare := share |}])
          end
      end
  end.

Definition alloc_chain (c : Chain) (w : World) : loc * World :=
  (length (chains w),
   {| chains := chains w ++ [c]; chans := chans w; ctxs := ctxs w; clock := clock w |}).

Definition MakeNode (credentials : NodeCredentials) (net : Network) (cfg : Config)
    (genesis : Block) (state : State) (txnPool : TxnPool) (u : Updater)
    (w : World) : outcome (Node * World) :=
  let randSeed := Rand (SHA3 dex_bytes) in
  let '(chain, w1) := alloc_chain (NewChain genesis state randSeed cfg txnPool u) w in
  let networking := NewNetworking net chain in
  node ← NewNode chain (cred_SK credentials) networking cfg w1;
  ms ← MakeNode_loop (GroupShares credentials) 0 (Groups credentials)
         (memberships node);
  Normal (set_memberships node ms, w1).

(** *** LoadCredential *)

(** [fs path] is what [ioutil.ReadFile(path)] returns; [fmt.Errorf] with
    the verb [%v] appends the message of [err]. *)
Definition LoadCredential (fs : string -> list Z + string) (path : string)
    : NodeCredentials * option string :=
  let c := zeroCredentials in
  match fs path with
  | inr err => (c, Some ("open credential file failed: " +:+ err))
  | inl b =>
      let '(c', err) := gobDecode b c in
      match err with
      | Some e => (c', Some ("decode credential file failed: " +:+ e))
      | None => (c', None)
      end
  end.

(** *** Effects of a method that runs under the lock *)

(** What the calling goroutine itself does before the method returns. *)
Inductive call : Type :=
| CallCommittees (round : N)        (* n.chain.RandomBeacon.Committees(round) *)
| CallProposeBlock (sk : SK)        (* n.chain.ProposeBlock(n.sk) *)
| CallMustGet (sk : SK)             (* n.sk.MustGet() *)
| CallNewNotary (share : SecretKey) (* NewNotary(n.addr, _, m.skShare, n.chain) *)
| CallCancel (ctx : loc).           (* n.cancelNotarize() *)

(** The bodies handed to [go]. *)
Inductive goroutine : Type :=
| GoProposal (bp : BlockProposal)
    (* n.net.recvBlockProposal(n.net.myself, bp) *)
| GoNotarize (notary : Notary) (ctx ntCancelCtx inCh : loc)
    (* notary.Notarize(ctx, ntCancelCtx, inCh, onNotarize); cancel() *)
| GoRandBeaconShare (keyShare : SecretKey) (round : N).
    (* history := ...; lastSigHash := ...; s := ...; n.net.recvRandBeaconSigShare(...) *)

Record effects := {
  calls : list call;
  spawned : list goroutine;
}.

(** What a goroutine hands to the networking layer. *)
Inductive net_event : Type :=
| recvBlockProposal (from : Peer) (bp : BlockProposal)
| recvRandBeaconSigShare (from : Peer) (s : RandBeaconSigShare).

(** A panic that no deferred call recovers stops the whole program; the
    goroutine bodies of node.go defer nothing. *)
Inductive process : Type :=
| Alive (sent : list net_event)
| Crashed (p : panic).

Definition after_goroutine (r : outcome net_event) : process :=
  match r with
  | Normal e => Alive [e]
  | Panics p => Crashed p
  end.

(** *** Field updates *)

Definition set_notarizeChs (n : Node) (chs : list loc) : Node :=
  {| addr := addr n; cfg := cfg n; sk := sk n; net := net n; chain := chain n;
     memberships := memberships n; notarizeChs := chs;
     cancelNotarize := cancelNotarize n |}.

Definition set_cancelNotarize (n : Node) (f : option loc) : Node :=
  {| addr := addr n; cfg := cfg n; sk := sk n; net := net n; chain := chain n;
     memberships := memberships n; notarizeChs := notarizeChs n;
     cancelNotarize := f |}.

Definition set_chans (w : World) (cs : list chan) : World :=
  {| chains := chains w; chans := cs; ctxs := ctxs w; clock := clock w |}.

Definition set_ctxs (w : World) (cs : list context) : World :=
  {| chains := chains w; chans := chans w; ctxs := cs; clock := clock w |}.

(** [make(chan *BlockProposal, cap)] *)
Definition make_chan (cap : nat) (w : World) : loc * World :=
  (length (chans w), set_chans w (chans w ++ [{| ch_cap := cap; ch_buf := [] |}])).

(** [context.WithCancel(context.Background())] and
    [context.WithDeadline(context.Background(), d)] *)
Definition new_context (deadline : option Z) (w : World) : loc * World :=
  (length (ctxs w),
   set_ctxs w (ctxs w ++ [{| ctx_deadline := deadline; ctx_done := false |}])).

(** Calling the cancel function of context [l]: the context is done from
    then on; a later call finds it done and changes nothing. *)
Definition mark_done (c : context) : context :=
  {| ctx_deadline := ctx_deadline c; ctx_done := true |}.

Definition cancel (l : loc) (w : World) : World :=
  set_ctxs w (alter mark_done l (ctxs w)).

(** *** _StartRound *)

Definition notarizeChCap : nat := 20.

Record round_state := {
  rs_node : Node;
  rs_world : World;
  rs_ntCancelCtx : option loc;     (* var ntCancelCtx context.Context *)
  rs_effects : effects;
}.

Definition add_call (e : effects) (c : call) : effects :=
  {| calls := calls e ++ [c]; spawned := spawned e |}.

Definition add_go (e : effects) (g : goroutine) : effects :=
  {| calls := calls e; spawned := spawned e ++ [g] |}.

(** [if m.groupID == bp { ... }] *)
Definition StartRound_propose (c : Chain) (bp : Z) (m : membership)
    (st : round_state) : round_state :=
  if decide (groupID m = bp) then
    let n := rs_node st in
    let bp' := ProposeBlock c (sk n) in
    {| rs_node := n; rs_world := rs_world st;
       rs_ntCancelCtx := rs_ntCancelCtx st;
       rs_effects :=
         add_go (add_call (rs_effects st) (CallProposeBlock (sk n))) (GoProposal bp') |}
  else st.

(** [if m.groupID == nt { ... }] *)
Definition StartRound_notarize (nt : Z) (m : membership)
    (st : round_state) : outcome round_state :=
  if decide (groupID m = nt) then
    let n := rs_node st in
    let w := rs_world st in
    let '(ntCancelCtx, n1, w1) :=
      match rs_ntCancelCtx st with
      | Some l => (l, n, w)
      | None =>
          let '(l, w') := new_context None w in
          (l, set_cancelNotarize n (Some l), w')
      end in
    let e1 := add_call (rs_effects st) (CallMustGet (sk n1)) in
    k ← SK_MustGet (sk n1);
    let notary := NewNotary (addr n1) k (skShare m) (chain n1) in
    let e2 := add_call e1 (CallNewNotary (skShare m)) in
    let '(inCh, w2) := make_chan notarizeChCap w1 in
    let n2 := set_notarizeChs n1 (notarizeChs n1 ++ [inCh]) in
    let '(ctx, w3) := new_context (Some (clock w2 + BlockTime (cfg n2))) w2 in
    Normal {| rs_node := n2; rs_world := w3;
              rs_ntCancelCtx := Some ntCancelCtx;
              rs_effects := add_go e2 (GoNotarize notary ctx ntCancelCtx inCh) |}
  else Normal st.

(** [for _, m := range n.memberships { ... }] *)
Fixpoint StartRound_loop (c : Chain) (bp nt : Z) (ms : list membership)
    (st : round_state) : outcome round_state :=
  match ms with
  | [] => Normal st
  | m :: ms' =>
      st' ← StartRound_notarize nt m (StartRound_propose c bp m st);
      StartRound_loop c bp nt ms' st'
  end.

Definition _StartRound (n : Node) (w : World) (round : N)
    : outcome (Node * World * effects) :=
  match chains w !! chain n with
  | None => Panics PanicNil
  | Some c =>
      let '(_, bp, nt) := Committees c round in
      st ← StartRound_loop c bp nt (memberships n)
             {| rs_node := n; rs_world := w; rs_ntCancelCtx := None;
                rs_effects := {| calls := [CallCommittees round]; spawned := [] |} |};
      Normal (rs_node st, rs_world st, rs_effects st)
  end.

(** The fields of a node that no method changes after [MakeNode]. *)
Definition same_identity (n n' : Node) : Prop :=
  addr n' = addr n ∧ cfg n' = cfg n ∧ sk n' = sk n ∧ net n' = net n
  ∧ chain n' = chain n ∧ memberships n' = memberships n.

(** The channel [make(chan *BlockProposal, 20)] returns. *)
Definition fresh_chan : chan := {| ch_cap := notarizeChCap; ch_buf := [] |}.

(** The proposals the caller of a method builds itself, and those that
    its goroutines hand to the network. *)
Definition proposals_built (cs : list call) : list SK :=
  omap (λ c, match c with CallProposeBlock sk => Some sk | _ => None end) cs.

Definition proposals_spawned (gs : list goroutine) : list BlockProposal :=
  omap (λ g, match g with GoProposal bp => Some bp | _ => None end) gs.

(** The reading of the specification under which no proposal is built
    by the caller of [_StartRound]. *)
Definition proposes_asynchronously (n : Node) (w : World) (round : N) : Prop :=
  ∀ n' w' eff, _StartRound n w round = Normal (n', w', eff) →
    proposals_built (calls eff) = [].

(** *** EndRound *)

(** [for _, m := range n.memberships { if m.groupID != rb { continue } ... }] *)
Fixpoint EndRound_loop (rb : Z) (round : N) (ms : list membership) : list goroutine :=
  match ms with
  | [] => []
  | m :: ms' =>
      if decide (groupID m ≠ rb) then EndRound_loop rb round ms'
      else
        let keyShare := skShare m in
        GoRandBeaconShare keyShare round :: EndRound_loop rb round ms'
  end.

Definition EndRound (n : Node) (w : World) (round : N)
    : outcome (Node * World * effects) :=
  let n1 := set_notarizeChs n [] in
  let '(w1, cs) :=
    match cancelNotarize n1 with
    | Some l => (cancel l w, [CallCancel l])
    | None => (w, [])
    end in
  match chains w1 !! chain n1 with
  | None => Panics PanicNil
  | Some c =>
      let '(rb, _, _) := Committees c round in
      Normal (n1, w1,
              {| calls := cs ++ [CallCommittees round];
                 spawned := EndRound_loop rb round (memberships n1) |})
  end.

(** The body of the goroutine of [EndRound], run against the world [w]
    of the moment it is scheduled. *)
Definition run_RandBeaconShare (n : Node) (w : World) (keyShare : SecretKey)
    (round : N) : outcome net_event :=
  match chains w !! chain n with
  | None => Panics PanicNil
  | Some c =>
      let history := History c in
      match history !! N.to_nat round with
      | None => Panics (PanicIndex (N.to_nat round) (length history))
      | Some e =>
          let lastSigHash := SHA3 (Sig e) in
          k ← SK_MustGet (sk n);
          let s := signRandBeaconShare k keyShare (add64 round 1) lastSigHash in
          Normal (recvRandBeaconSigShare (myself (net n)) s)
      end
  end.

(** The reading of the specification under which a missing history
    entry is harmless: the goroutine that [EndRound(round)] spawned
    neither sends a share nor stops the program. *)
Definition survives_missing_history (n : Node) (w : World) (round : N) : Prop :=
  ∀ c keyShare, chains w !! chain n = Some c →
    History c !! N.to_nat round = None →
    GoRandBeaconShare keyShare round ∈
      match EndRound n w round with
      | Normal (_, _, eff) => spawned eff
      | Panics _ => []
      end →
    (∀ ev, run_RandBeaconShare n w keyShare round ≠ Normal ev)
    ∧ (∀ p, after_goroutine (run_RandBeaconShare n w keyShare round) ≠ Crashed p).

(** The body of the proposer goroutine of [_StartRound]. *)
Definition run_Proposal (n : Node) (bp : BlockProposal) : outcome net_event :=
  Normal (recvBlockProposal (myself (net n)) bp).

(** *** RecvBlockProposal *)

(** [ch <- bp]: proceeds when the buffer has room, and otherwise (also
    on a nil channel) blocks the sender; [None] is "cannot proceed". *)
Definition send (ch : loc) (bp : BlockProposal) (w : World) : option World :=
  match chans w !! ch with
  | Some c =>
      if decide (length (ch_buf c) < ch_cap c)%nat then
        Some (set_chans w
                (<[ch := {| ch_cap := ch_cap c; ch_buf := ch_buf c ++ [bp] |}]> (chans w)))
      else None
  | None => None
  end.

(** The buffer of [ch] is not full. *)
Definition has_room (ch : loc) (w : World) : Prop :=
  ∃ c, chans w !! ch = Some c ∧ (length (ch_buf c) < ch_cap c)%nat.

(** [<-ch] by the notary that reads [ch]. *)
Definition receive (ch : loc) (w : World) : option (BlockProposal * World) :=
  match chans w !! ch with
  | Some c =>
      match ch_buf c with
      | p :: buf' =>
          Some (p, set_chans w (<[ch := {| ch_cap := ch_cap c; ch_buf := buf' |}]> (chans w)))
      | [] => None
      end
  | None => None
  end.

(** How far the loop of [RecvBlockProposal] gets when no notary takes
    anything from its channel meanwhile: to the end, or to a send that
    cannot proceed, at which the call stays, holding the lock. *)
Inductive delivery : Type :=
| Returned (w : World)
| Blocked (ch : loc) (rest : list loc) (w : World).

Fixpoint RecvBlockProposal_loop (bp : BlockProposal) (chs : list loc) (w : World)
    : delivery :=
  match chs with
  | [] => Returned w
  | ch :: rest =>
      match send ch bp w with
      | Some w' => RecvBlockProposal_loop bp rest w'
      | None => Blocked ch rest w
      end
  end.

Definition RecvBlockProposal (n : Node) (w : World) (bp : BlockProposal) : delivery :=
  RecvBlockProposal_loop bp (notarizeChs n) w.

(** One call of [RecvBlockProposal] running next to the notaries: a state
    is the channels still to be sent to and the world; the sender moves
    by [send], a notary whose channel is in [reading] by [receive].
    The other methods of the node wait for the lock and do not move. *)
Inductive recv_step (bp : BlockProposal) (reading : loc -> Prop)
    : list loc * World -> list loc * World -> Prop :=
| step_send ch rest w w' :
    send ch bp w = Some w' ->
    recv_step bp reading (ch :: rest, w) (rest, w')
| step_receive ch p pending w w' :
    reading ch ->
    receive ch w = Some (p, w') ->
    recv_step bp reading (pending, w) (pending, w').

(** The proposal has been sent to [ch]. *)
Definition delivered (ch : loc) (st : list loc * World) : Prop := ch ∉ st.1.

(** Delivery to a channel does not depend on the other notaries: each
    channel gets the proposal even if only its own notary is receiving. *)
Definition not_blocked_by_others (bp : BlockProposal) (chs : list loc) (w : World)
    : Prop :=
  ∀ ch, ch ∈ chs →
    ∃ st, rtc (recv_step bp (λ c, c = ch)) (chs, w) st ∧ delivered ch st.

(** *** Between two rounds *)

(** The calls that reach the node after the end of a round and before
    the start of the next one. *)
Inductive window_call : Type :=
| WinRecvBlockProposal (bp : BlockProposal)
| WinEndRound (round : N).

(** These calls run one after the other; [None] when one of them does
    not return. *)
Fixpoint run_window (cs : list window_call) (n : Node) (w : World)
    : option (Node * World) :=
  match cs with
  | [] => Some (n, w)
  | WinRecvBlockProposal bp :: cs' =>
      match RecvBlockProposal n w bp with
      | Returned w' => run_window cs' n w'
      | Blocked _ _ _ => None
      end
  | WinEndRound round :: cs' =>
      match EndRound n w round with
      | Normal (n', w', _) => run_window cs' n' w'
      | Panics _ => None
      end
  end.

(** *** The methods that do not take the lock *)

(** [func (n *Node) Chain() *Chain] *)
Definition Node_Chain (n : Node) : loc := chain n.

(** The calls [Start] and [SendTxn] make into the networking layer. *)
Inductive net_call : Type :=
| NetStart (net : Networking) (myAddr seedAddr : string)  (* n.net.Start(myAddr, seedAddr) *)
| NetRecvTxn (net : Networking) (t : list Z).             (* n.net.RecvTxn(t) *)

Definition Start (n : Node) (myAddr seedAddr : string) : net_call :=
  NetStart (net n) myAddr seedAddr.

Definition SendTxn (n : Node) (t : list Z) : net_call :=
  NetRecvTxn (net n) t.

(** *** The contexts and notaries of a round *)

(** What [context.WithCancel(context.Background())] makes. *)
Definition cancel_ctx : context := {| ctx_deadline := None; ctx_done := false |}.

(** What [context.WithDeadline(context.Background(),
    time.Now().Add(n.cfg.BlockTime))] makes. *)
Definition deadline_ctx (w : World) (n : Node) : context :=
  {| ctx_deadline := Some (clock w + BlockTime (cfg n)); ctx_done := false |}.

(** The notarization goroutines among the spawned ones: the notary, its
    deadline context, the shared cancel context and its input channel. *)
Definition notaries_spawned (gs : list goroutine) : list (Notary * loc * loc * loc) :=
  omap (λ g, match g with
             | GoNotarize notary ctx ntCancelCtx inCh => Some (notary, ctx, ntCancelCtx, inCh)
             | _ => None
             end) gs.

(** The local memberships in group [g]. *)
Definition members_of (g : Z) (n : Node) : list membership :=
  filter (λ m, groupID m = g) (memberships n).

(** *** Sequences of calls *)

(** What can happen to a node once it is made: calls of its methods, and
    a notary taking a proposal from its input channel. *)
Inductive node_call : Type :=
| DoStartRound (round : N)
| DoEndRound (round : N)
| DoRecvBlockProposal (bp : BlockProposal)
| DoStart (myAddr seedAddr : string)
| DoSendTxn (t : list Z)
| NotaryReceives (ch : loc).

(** One such event; [None] when the call panics or does not return.  A
    notary that finds its channel empty waits, which changes nothing. *)
Definition run_call (c : node_call) (n : Node) (w : World) : option (Node * World) :=
  match c with
  | DoStartRound round =>
      match _StartRound n w round with
      | Normal (n', w', _) => Some (n', w')
      | Panics _ => None
      end
  | DoEndRound round =>
      match EndRound n w round with
      | Normal (n', w', _) => Some (n', w')
      | Panics _ => None
      end
  | DoRecvBlockProposal bp =>
      match RecvBlockProposal n w bp with
      | Returned w' => Some (n, w')
      | Blocked _ _ _ => None
      end
  | DoStart _ _ | DoSendTxn _ => Some (n, w)
  | NotaryReceives ch =>
      match receive ch w with
      | Some (_, w') => Some (n, w')
      | None => Some (n, w)
      end
  end.

Fixpoint run_calls (cs : list node_call) (n : Node) (w : World)
    : option (Node * World) :=
  match cs with
  | [] => Some (n, w)
  | c :: cs' =>
      match run_call c n w with
      | Some (n', w') => run_calls cs' n' w'
      | None => None
      end
  end.

(** The world a call of [RecvBlockProposal] has made by the time it
    returns or comes to stay at a full channel. *)
Definition delivery_world (d : delivery) : World :=
  match d with
  | Returned w => w
  | Blocked _ _ w => w
  end.

(** Two worlds that differ at most in what the buffers of their channels
    hold. *)
Definition buffers_only (w w' : World) : Prop :=
  chains w' = chains w ∧ ctxs w' = ctxs w ∧ clock w' = clock w
  ∧ length (chans w') = length (chans w)
  ∧ ∀ i c, chans w !! i = Some c → ∃ c', chans w' !! i = Some c' ∧ ch_cap c' = ch_cap c.

(** No buffer holds more than its capacity. *)
Definition bounded (w : World) : Prop :=
  ∀ i c, chans w !! i = Some c → (length (ch_buf c) ≤ ch_cap c)%nat.

(** The state a node is in between calls: its chain exists, its notary
    input channels are distinct channels of capacity 20, its cancel
    function belongs to an existing context, and no buffer is over-full. *)
Definition wf_node (n : Node) (w : World) : Prop :=
  (chain n < length (chains w))%nat
  ∧ NoDup (notarizeChs n)
  ∧ (∀ ch, ch ∈ notarizeChs n → ∃ c, chans w !! ch = Some c ∧ ch_cap c = notarizeChCap)
  ∧ (∀ l, cancelNotarize n = Some l → (l < length (ctxs w))%nat)
  ∧ bounded w.

End Node.

(** ** The market-symbol key *)

Module Market.

(** Modelled from the spec: [MarketSymbol], [Encode] and [Decode] are not
    part of the sources at hand; only their tests are.  The tests fix the
    two fields [Quote] and [Base] at 64 bits each, and the specification
    calls the structure fixed-width with a 128-bit key in total: [Encode]
    writes the 8 bytes of [Quote] followed by the 8 bytes of [Base], and
    [Decode] reads them back, refusing any input that is not 16 bytes
    long.  The byte order is not stated, so it is a parameter. *)
Inductive byte_order : Type := LittleEndian | BigEndian.

Record MarketSymbol := {
  Quote : Z;
  Base : Z;
}.

(** Both fields are [uint64] values. *)
Definition wf (m : MarketSymbol) : Prop :=
  0 <= Quote m < 2 ^ 64 /\ 0 <= Base m < 2 ^ 64.

(** The [k] low bytes of [x], least significant first. *)
Fixpoint le_bytes (k : nat) (x : Z) : list Z :=
  match k with
  | O => []
  | S k' => x mod 256 :: le_bytes k' (x / 256)
  end.

Fixpoint le_value (bs : list Z) : Z :=
  match bs with
  | [] => 0
  | b :: bs' => b + 256 * le_value bs'
  end.

Definition PutUint64 (o : byte_order) (x : Z) : list Z :=
  match o with
  | LittleEndian => le_bytes 8 x
  | BigEndian => rev (le_bytes 8 x)
  end.

Definition Uint64 (o : byte_order) (bs : list Z) : Z :=
  match o with
  | LittleEndian => le_value bs
  | BigEndian => le_value (rev bs)
  end.

Definition Encode (o : byte_order) (m : MarketSymbol) : list Z :=
  PutUint64 o (Quote m) ++ PutUint64 o (Base m).

Definition Decode (o : byte_order) (b : list Z) : MarketSymbol + string :=
  if decide (length b = 16%nat) then
    inl {| Quote := Uint64 o (take 8 b); Base := Uint64 o (drop 8 b) |}
  else inr "invalid market symbol length".

(** The values of [TestMarketSymbolBytes] and [TestMarketEncodeDecode]. *)
Definition test_m0 : MarketSymbol := {| Quote := 2 ^ 64 - 2; Base := 2 ^ 64 - 1 |}.
Definition test_m1 : MarketSymbol := {| Quote := 2 ^ 64 - 2; Base := 2 ^ 64 - 3 |}.
Definition test_m : MarketSymbol := {| Base := 2 ^ 64 - 1; Quote := 1 |}.

End Market.

(** ** A small instance of the collaborators

    Keys are byte strings, a secret key is usable when it is a single
    byte, hashing and signing only record their arguments, and a chain is
    its beacon history.  It serves to run the model on concrete inputs. *)

Module Sample.

#[local] Instance keys : Keys := {|
  SK := list Z;
  PK := list Z;
  Addr := list Z;
  Hash := list Z;
  SecretKey := Z;
  zeroSK := [];
  SK_PK := fun sk => match sk with [] => inr "empty secret key" | _ => inl sk end;
  SK_Get := fun sk => match sk with [b] => inl b | _ => inr "malformed secret key" end;
  PK_Addr := fun pk => pk;
  SHA3 := fun b => b;
|}.

#[local] Instance collaborators : Collaborators := {|
  Block := unit;
  State := unit;
  TxnPool := unit;
  Updater := unit;
  Network := unit;
  Peer := nat;
  BlockProposal := nat;
  RandBeaconSig := list Z;
  Sig := fun s => s;
  RandBeaconSigShare := Z * Z * N * list Z;
  signRandBeaconShare := fun k share round h => (k, share, round, h);
  RandT := list Z;
  Rand := fun h => h;
  Chain := list (list Z);
  NewChain := fun _ _ _ _ _ _ => [];
  History := fun c => c;
  selectCommittees := fun round h => (Z.of_nat (length h), 1, 2);
  ProposeBlock := fun c _ => length c;
  Networking := nat;
  NewNetworking := fun _ l => l;
  myself := fun n => n;
  Notary := unit;
  NewNotary := fun _ _ _ _ => tt;
  gobDecode := fun b c =>
    match b with
    | [] => (c, Some "EOF")
    | x :: _ => ({| cred_SK := [x]; Groups := [0; 1]; GroupShares := [[7]; [8]] |}, None)
    end;
|}.

Definition config : Config := {| BlockTime := 1000; GroupSize := 4; GroupThreshold := 3 |}.

(** A node in the groups 0, 1 and 2. *)
Definition node : Node := {|
  addr := [5]; cfg := config; sk := [5]; net := 0%nat; chain := 0%nat;
  memberships := [ {| skShare := 7; groupID := 0 |};
                   {| skShare := 8; groupID := 1 |};
                   {| skShare := 9; groupID := 2 |} ];
  notarizeChs := []; cancelNotarize := None |}.

(** A world whose only chain has no beacon signature yet. *)
Definition world0 : World :=
  {| chains := [ [] ]; chans := []; ctxs := []; clock := 0 |}.

(** A world whose chain has the beacon signature of round 0. *)
Definition world1 : World :=
  {| chains := [ [ [42] ] ]; chans := []; ctxs := []; clock := 0 |}.

Definition full_chan : chan :=
  {| ch_cap := notarizeChCap; ch_buf := replicate notarizeChCap 0%nat |}.

Definition empty_chan : chan := {| ch_cap := notarizeChCap; ch_buf := [] |}.

(** Two notary channels: the first one full, the second one empty. *)
Definition world_full : World :=
  {| chains := [ [] ]; chans := [full_chan; empty_chan]; ctxs := []; clock := 0 |}.

Definition node_two_chs : Node := set_notarizeChs node [0%nat; 1%nat].

(** A node with two memberships in group 2, the notary committee. *)
Definition node_two_notaries : Node :=
  set_memberships node [ {| skShare := 9; groupID := 2 |};
                         {| skShare := 10; groupID := 2 |} ].

(** [k] proposals reach the node one after the other; the notary of the
    channel [reader] takes each of them, the other notaries take none. *)
Fixpoint flood (k : nat) (reader : nat) (n : Node) (w : World) : option World :=
  match k with
  | O => Some w
  | S k' =>
      match RecvBlockProposal n w 0%nat with
      | Returned w1 =>
          match receive reader w1 with
          | Some (_, w2) => flood k' reader n w2
          | None => None
          end
      | Blocked _ _ _ => None
      end
  end.

Definition credentials : NodeCredentials :=
  {| cred_SK := [5]; Groups := [0; 1]; GroupShares := [[7]; [8]] |}.

(** One more group than shares. *)
Definition credentials_short : NodeCredentials :=
  {| cred_SK := [5]; Groups := [0; 1]; GroupShares := [[7]] |}.

(** The share of the second group cannot be retrieved. *)
Definition credentials_bad_share : NodeCredentials :=
  {| cred_SK := [5]; Groups := [0; 1]; GroupShares := [[7]; []] |}.

(** A node key without a public key. *)
Definition empty_key : SK := [].

(** Two block proposals. *)
Definition bp3 : BlockProposal := 3%nat.
Definition bp4 : BlockProposal := 4%nat.

(** The node of the sample with a key that cannot be retrieved. *)
Definition node_bad_key : Node := {|
  addr := [5]; cfg := config; sk := empty_key; net := 0%nat; chain := 0%nat;
  memberships := memberships node; notarizeChs := []; cancelNotarize := None |}.

(** The same, in the groups 0 and 1 only. *)
Definition node_bad_key_no_notary : Node :=
  set_memberships node_bad_key [ {| skShare := 7; groupID := 0 |};
                                 {| skShare := 8; groupID := 1 |} ].

(** A node that still holds the cancel function of an earlier round, and
    a world in which the context of that round is done. *)
Definition node_stale : Node := set_cancelNotarize node_bad_key_no_notary (Some 0%nat).

Definition world_done : World :=
  {| chains := [ [] ]; chans := []; ctxs := [mark_done cancel_ctx]; clock := 0 |}.

Definition fs (path : string) : list Z + string :=
  if decide (path = "node.credential") then inl [5]
  else if decide (path = "empty") then inl []
  else inr "no such file".

End Sample.

(** * Properties *)

Section NodeFacts.
Context `{Collaborators}.

(** ** Construction of a node *)

Lemma MakeNode_loop_Normal shares rest : ∀ j ms ms',
  MakeNode_loop shares j rest ms = Normal ms' →
  ∃ added, ms' = ms ++ added ∧ length added = length rest ∧
    ∀ i g, rest !! i = Some g →
      ∃ s share, shares !! (j + i)%nat = Some s ∧ SK_Get s = inl share ∧
        added !! i = Some {| skShare := share; groupID := g |}.
Proof.
  induction rest as [|g rest IH]; intros j ms ms' Hrun; simpl in Hrun.
  - exists []. inversion Hrun. rewrite app_nil_r. repeat split; auto.
    intros i g Hi. rewrite lookup_nil in Hi. discriminate.
  - destruct (shares !! j) as [s|] eqn:Hs; [|discriminate].
    destruct (SK_Get s) as [share|err] eqn:Hget; [|discriminate].
    destruct (IH _ _ _ Hrun) as (added & -> & Hlen & Hadded).
    exists ({| skShare := share; groupID := g |} :: added).
    rewrite <- app_assoc. simpl. repeat split; [by rewrite Hlen|].
    intros [|i] g' Hi; simpl in Hi.
    + inversion Hi; subst. exists s, share. by rewrite Nat.add_0_r.
    + destruct (Hadded i g' Hi) as (s' & share' & Hs' & Hget' & Hl).
      exists s', share'. by rewrite Nat.add_succ_r.
Qed.

Lemma MakeNode_loop_short shares rest : ∀ j ms,
  (j ≤ length shares)%nat → (length shares < j + length rest)%nat →
  panics (MakeNode_loop shares j rest ms).
Proof.
  induction rest as [|g rest IH]; intros j ms Hj Hlt; simpl in *; [lia|].
  destruct (shares !! j) as [s|] eqn:Hs; [|by eexists].
  destruct (SK_Get s) as [share|err]; [|by eexists].
  apply lookup_lt_Some in Hs. apply IH; lia.
Qed.

Lemma MakeNode_loop_index shares rest : ∀ j ms,
  (j ≤ length shares)%nat → (length shares < j + length rest)%nat →
  (∀ s, s ∈ shares → ∃ share, SK_Get s = inl share) →
  MakeNode_loop shares j rest ms
  = Panics (PanicIndex (length shares) (length shares)).
Proof.
  induction rest as [|g rest IH]; intros j ms Hj Hlt Hok; simpl in *; [lia|].
  destruct (shares !! j) as [s|] eqn:Hs.
  - destruct (Hok s) as [share ->]; [by eapply list_elem_of_lookup_2|].
    apply lookup_lt_Some in Hs. apply IH; auto; lia.
  - apply lookup_ge_None in Hs. by replace j with (length shares) by lia.
Qed.

Lemma MakeNode_loop_total shares rest : ∀ j ms,
  (∀ i s, (i < j + length rest)%nat → shares !! i = Some s →
          ∃ share, SK_Get s = inl share) →
  (j + length rest ≤ length shares)%nat →
  ∃ ms', MakeNode_loop shares j rest ms = Normal ms'.
Proof.
  induction rest as [|g rest IH]; intros j ms Hok Hlen; simpl in *; [by eexists|].
  destruct (lookup_lt_is_Some_2 shares j) as [s Hs]; [lia|]. rewrite Hs.
  destruct (Hok j s) as [share ->]; [lia|done|].
  apply IH; [|lia]. intros i s' Hi. apply Hok. lia.
Qed.

Lemma MakeNode_unfold credentials net cfg genesis state txnPool u w :
  MakeNode credentials net cfg genesis state txnPool u w =
  let w1 := (alloc_chain (NewChain genesis state (Rand (SHA3 dex_bytes)) cfg txnPool u) w).2 in
  match SK_PK (cred_SK credentials) with
  | inr err => Panics (PanicError err)
  | inl pk =>
      let node := {| addr := PK_Addr pk; cfg := cfg; sk := cred_SK credentials;
                     net := NewNetworking net (length (chains w));
                     chain := length (chains w);
                     memberships := []; notarizeChs := []; cancelNotarize := None |} in
      match MakeNode_loop (GroupShares credentials) 0 (Groups credentials) [] with
      | Panics p => Panics p
      | Normal ms => Normal (set_memberships node ms, w1)
      end
  end.
Proof.
  unfold MakeNode, alloc_chain, NewNode. simpl.
  destruct (SK_PK (cred_SK credentials)) as [pk|err]; [|done].
  rewrite lookup_app_r, Nat.sub_diag by lia. simpl.
  unfold mbind, outcome_bind, Go.bind. simpl.
  by destruct (MakeNode_loop _ _ _ _).
Qed.

End NodeFacts.

Section Startup.
Context `{Collaborators}.

(** C9.  [MakeNode] makes one membership per entry of
    [credentials.Groups], the [j]-th one pairing [Groups[j]] with the
    share obtained from [GroupShares[j]], in order, and it does return a
    node when the node key and the shares are retrievable; when
    [GroupShares] is shorter than [Groups] it panics, with an index out
    of range once every share that is there has been retrieved. *)
Theorem MakeNode_memberships credentials net cfg genesis state txnPool u w :
  (∀ n w', MakeNode credentials net cfg genesis state txnPool u w = Normal (n, w') →
     length (memberships n) = length (Groups credentials) ∧
     ∀ j g, Groups credentials !! j = Some g →
       ∃ s share, GroupShares credentials !! j = Some s ∧ SK_Get s = inl share ∧
         memberships n !! j = Some {| skShare := share; groupID := g |})
  ∧ ((length (Groups credentials) ≤ length (GroupShares credentials))%nat →
     (∃ pk, SK_PK (cred_SK credentials) = inl pk) →
     (∀ i s, (i < length (Groups credentials))%nat →
             GroupShares credentials !! i = Some s → ∃ share, SK_Get s = inl share) →
     ∃ n w', MakeNode credentials net cfg genesis state txnPool u w = Normal (n, w'))
  ∧ ((length (GroupShares credentials) < length (Groups credentials))%nat →
     panics (MakeNode credentials net cfg genesis state txnPool u w) ∧
     ((∃ pk, SK_PK (cred_SK credentials) = inl pk) →
      (∀ s, s ∈ GroupShares credentials → ∃ share, SK_Get s = inl share) →
      MakeNode credentials net cfg genesis state txnPool u w
      = Panics (PanicIndex (length (GroupShares credentials))
                           (length (GroupShares credentials))))).
Proof.
  rewrite MakeNode_unfold. cbv zeta. split; [|split].
  - intros n w' Hrun.
    destruct (SK_PK (cred_SK credentials)) as [pk|err]; [|discriminate].
    destruct (MakeNode_loop _ _ _ _) as [ms|p] eqn:Hloop; [|discriminate].
    inversion Hrun; subst; clear Hrun. simpl.
    destruct (MakeNode_loop_Normal _ _ _ _ _ Hloop) as (added & -> & Hlen & Hadded).
    simpl. split; [done|]. intros j g Hj. by apply Hadded.
  - intros Hlen [pk ->] Hok.
    destruct (MakeNode_loop_total (GroupShares credentials) (Groups credentials) 0 [])
      as [ms ->]; [done|done|]. by eexists _, _.
  - intros Hlt. split.
    + destruct (SK_PK (cred_SK credentials)) as [pk|err]; [|by eexists].
      destruct (MakeNode_loop_short (GroupShares credentials) (Groups credentials) 0 [])
        as [p ->]; [lia|done|]. by eexists.
    + intros [pk ->] Hok.
      by rewrite (MakeNode_loop_index (GroupShares credentials)) by (done || lia).
Qed.

(** C6.  [LoadCredential] returns an error exactly when the file cannot
    be read or its gob decoding fails, and the decoded credentials with
    a nil error otherwise; [NewNode] and [MakeNode] panic when the public
    key of the node key cannot be derived, and [MakeNode] panics when
    the share of one of the groups cannot be retrieved. *)
Theorem startup_credential_failures :
  (∀ fs path,
     (snd (LoadCredential fs path) ≠ None ↔
        (∃ err, fs path = inr err) ∨
        (∃ b err, fs path = inl b ∧ snd (gobDecode b zeroCredentials) = Some err))
     ∧ (∀ b c, fs path = inl b → gobDecode b zeroCredentials = (c, None) →
          LoadCredential fs path = (c, None)))
  ∧ (∀ chain sk net cfg w err,
       SK_PK sk = inr err → NewNode chain sk net cfg w = Panics (PanicError err))
  ∧ (∀ credentials net cfg genesis state txnPool u w,
       (∀ err, SK_PK (cred_SK credentials) = inr err →
          MakeNode credentials net cfg genesis state txnPool u w
          = Panics (PanicError err))
       ∧ (∀ j g s err, Groups credentials !! j = Some g →
            GroupShares credentials !! j = Some s → SK_Get s = inr err →
            panics (MakeNode credentials net cfg genesis state txnPool u w))).
Proof.
  split; [|split].
  - intros fs path. unfold LoadCredential. split.
    + destruct (fs path) as [b|err]; [|split; [eauto|done]].
      destruct (gobDecode b zeroCredentials) as [c [e|]] eqn:Hdec; simpl.
      * split; [|done]. intros _. right. exists b, e. by rewrite Hdec.
      * split; [done|]. intros [[err [=]]|(b' & err & [= <-] & Herr)].
        rewrite Hdec in Herr. discriminate.
    + intros b c -> Hdec. by rewrite Hdec.
  - intros chain sk net cfg w err Hpk. unfold NewNode. by rewrite Hpk.
  - intros credentials net cfg genesis state txnPool u w.
    rewrite MakeNode_unfold. cbv zeta. split.
    + by intros err ->.
    + intros j g s err Hg Hs Hget.
      destruct (SK_PK (cred_SK credentials)) as [pk|e]; [|by eexists].
      destruct (MakeNode_loop _ _ _ _) as [ms|p] eqn:Hloop; [|by eexists].
      destruct (MakeNode_loop_Normal _ _ _ _ _ Hloop) as (added & _ & _ & Hadded).
      destruct (Hadded j g Hg) as (s' & share & Hs' & Hget' & _).
      simpl in Hs'. congruence.
Qed.

End Startup.

Lemma MakeNode_memberships_witness :
  (∃ n w', MakeNode (H0 := Sample.collaborators) Sample.credentials tt Sample.config
             tt tt tt tt Sample.world0 = Normal (n, w')
           ∧ length (memberships n) = 2%nat)
  ∧ MakeNode (H0 := Sample.collaborators) Sample.credentials_short tt Sample.config
      tt tt tt tt Sample.world0 = Panics (PanicIndex 1 1).
Proof.
  split.
  - destruct (MakeNode_memberships (H0 := Sample.collaborators) Sample.credentials tt
                Sample.config tt tt tt tt Sample.world0) as (Hpairs & Htotal & _).
    destruct Htotal as (n & w' & Hrun).
    + simpl. lia.
    + by eexists.
    + intros [|[|i]] s Hi Hs; simpl in *; try lia.
      * inversion Hs. by eexists.
      * inversion Hs. by eexists.
    + exists n, w'. split; [done|]. by destruct (Hpairs n w' Hrun) as [-> _].
  - destruct (MakeNode_memberships (H0 := Sample.collaborators) Sample.credentials_short tt
                Sample.config tt tt tt tt Sample.world0) as (_ & _ & Hshort).
    destruct Hshort as [_ Hindex]; [simpl; lia|].
    apply Hindex.
    + by eexists.
    + intros s Hs. apply list_elem_of_singleton in Hs as ->. by eexists.
Defined.

Lemma startup_credential_failures_witness :
  snd (LoadCredential (H0 := Sample.collaborators) Sample.fs "missing") ≠ None
  ∧ LoadCredential (H0 := Sample.collaborators) Sample.fs "node.credential"
    = (Sample.credentials, None)
  ∧ NewNode (H0 := Sample.collaborators) 0%nat Sample.empty_key 0%nat Sample.config
      Sample.world0
    = Panics (PanicError "empty secret key")
  ∧ panics (MakeNode (H0 := Sample.collaborators) Sample.credentials_bad_share
              tt Sample.config tt tt tt tt Sample.world0).
Proof.
  destruct (startup_credential_failures (H0 := Sample.collaborators))
    as (Hload & Hnew & Hmake).
  split; [|split; [|split]].
  - apply (Hload Sample.fs "missing"). left. by eexists.
  - by eapply (Hload Sample.fs "node.credential").
  - by apply Hnew.
  - by eapply (Hmake Sample.credentials_bad_share) with (j := 1%nat).
Defined.

Section RoundEnd.
Context `{Collaborators}.

(** ** The end of a round *)

Lemma EndRound_loop_filter rb round ms :
  EndRound_loop rb round ms
  = (λ m, GoRandBeaconShare (skShare m) round) <$> filter (λ m, groupID m = rb) ms.
Proof.
  induction ms as [|m ms IH]; [done|]. simpl.
  destruct (decide (groupID m ≠ rb)) as [Hne|Heq].
  - by rewrite filter_cons_False.
  - apply dec_stable in Heq. rewrite filter_cons_True by done. simpl. by f_equal.
Qed.

Lemma EndRound_unfold n w round c :
  chains w !! chain n = Some c →
  EndRound n w round =
  Normal (set_notarizeChs n [],
          match cancelNotarize n with Some l => cancel l w | None => w end,
          {| calls := match cancelNotarize n with
                      | Some l => [CallCancel l]
                      | None => []
                      end ++ [CallCommittees round];
             spawned := EndRound_loop (Committees c round).1.1 round (memberships n) |}).
Proof.
  intros Hc. unfold EndRound. simpl.
  destruct (cancelNotarize n) as [l|]; simpl; rewrite Hc;
    by destruct (Committees c round) as [[rb bp] nt].
Qed.

Lemma EndRound_Normal_inv n w round n' w' eff :
  EndRound n w round = Normal (n', w', eff) →
  ∃ c, chains w !! chain n = Some c.
Proof.
  unfold EndRound. simpl.
  destruct (cancelNotarize n) as [l|]; simpl;
    destruct (chains w !! chain n) as [c|]; try discriminate; eauto.
Qed.

Lemma run_RandBeaconShare_Normal n w keyShare round ev :
  run_RandBeaconShare n w keyShare round = Normal ev ↔
  ∃ c e k, chains w !! chain n = Some c ∧ History c !! N.to_nat round = Some e ∧
    SK_Get (sk n) = inl k ∧
    ev = recvRandBeaconSigShare (myself (net n))
           (signRandBeaconShare k keyShare (add64 round 1) (SHA3 (Sig e))).
Proof.
  unfold run_RandBeaconShare, SK_MustGet, mbind, outcome_bind, Go.bind. split.
  - destruct (chains w !! chain n) as [c|] eqn:Hc; [|discriminate].
    destruct (History c !! N.to_nat round) as [e|] eqn:He; [|discriminate].
    destruct (SK_Get (sk n)) as [k|err] eqn:Hk; [|discriminate].
    intros [= <-]. by exists c, e, k.
  - intros (c & e & k & -> & -> & -> & ->). done.
Qed.

(** C1.  [EndRound(round)] spawns one signing goroutine for each local
    membership in the random-beacon committee of [round], in order.  Such
    a goroutine produces a share exactly when the beacon history it finds
    has an entry for [round] and the node key can be retrieved, and the
    share it hands to the network is then the one signed with the
    membership's key share over [round+1] (an [uint64] sum) and the SHA3
    hash of [history[round].Sig]. *)
Theorem EndRound_beacon_share n w round n' w' eff :
  EndRound n w round = Normal (n', w', eff) →
  ∃ c, chains w !! chain n = Some c ∧
    spawned eff
    = (λ m, GoRandBeaconShare (skShare m) round)
        <$> filter (λ m, groupID m = (Committees c round).1.1) (memberships n)
    ∧ (∀ keyShare w2 ev,
         run_RandBeaconShare n' w2 keyShare round = Normal ev ↔
         ∃ c2 e k, chains w2 !! chain n = Some c2 ∧
           History c2 !! N.to_nat round = Some e ∧ SK_Get (sk n) = inl k ∧
           ev = recvRandBeaconSigShare (myself (net n))
                  (signRandBeaconShare k keyShare (add64 round 1) (SHA3 (Sig e))))
    ∧ ((round + 1 < two64)%N → add64 round 1 = (round + 1)%N).
Proof.
  intros Hrun. destruct (EndRound_Normal_inv _ _ _ _ _ _ Hrun) as [c Hc].
  rewrite (EndRound_unfold _ _ _ _ Hc) in Hrun. inversion Hrun; subst; clear Hrun.
  exists c. split; [done|]. simpl. split; [apply EndRound_loop_filter|]. split.
  - intros keyShare w2 ev. by rewrite run_RandBeaconShare_Normal.
  - intros Hlt. unfold add64. by apply N.mod_small.
Qed.

(** C5, as amended.  When the beacon history has no entry for [round],
    [EndRound(round)] itself returns, and the signing goroutine it spawned
    hands no share to the network: it panics on the index out of range,
    and nothing in it recovers the panic. *)
Theorem EndRound_share_without_history n w round keyShare c :
  chains w !! chain n = Some c →
  History c !! N.to_nat round = None →
  (∃ n' w' eff, EndRound n w round = Normal (n', w', eff) ∧ chains w' = chains w ∧
     chain n' = chain n ∧ sk n' = sk n ∧ net n' = net n)
  ∧ run_RandBeaconShare n w keyShare round
    = Panics (PanicIndex (N.to_nat round) (length (History c)))
  ∧ after_goroutine (run_RandBeaconShare n w keyShare round)
    = Crashed (PanicIndex (N.to_nat round) (length (History c))).
Proof.
  intros Hc Hnone. split.
  - rewrite (EndRound_unfold _ _ _ _ Hc). eexists _, _, _. split; [done|].
    by destruct (cancelNotarize n).
  - unfold run_RandBeaconShare. by rewrite Hc, Hnone.
Qed.

End RoundEnd.

Lemma EndRound_beacon_share_witness :
  ∃ eff, EndRound Sample.node Sample.world1 0 = Normal (Sample.node, Sample.world1, eff)
    ∧ spawned eff = [GoRandBeaconShare (7 : @SecretKey Sample.keys) 0]
    ∧ run_RandBeaconShare Sample.node Sample.world1 (7 : @SecretKey Sample.keys) 0
      = Normal (recvRandBeaconSigShare (0%nat : @Peer _ Sample.collaborators)
                  ((5, 7, 1%N, [42]) : @RandBeaconSigShare _ Sample.collaborators)).
Proof.
  eexists. split; [reflexivity|]. split; [reflexivity|].
  destruct (EndRound_beacon_share Sample.node Sample.world1 0 _ _ _ eq_refl)
    as (c & Hc & _ & Hshare & _).
  apply Hshare. eexists _, _, _. split; [reflexivity|]. split; [reflexivity|].
  split; reflexivity.
Defined.

Lemma EndRound_share_without_history_witness :
  after_goroutine (run_RandBeaconShare Sample.node Sample.world0 (7 : @SecretKey Sample.keys) 0)
  = Crashed (PanicIndex 0 0).
Proof.
  by apply (EndRound_share_without_history Sample.node Sample.world0 0
              (7 : @SecretKey Sample.keys) []).
Defined.

(** C5 as stated fails: the node of the sample, in the random-beacon
    committee of round 0, ends round 0 before the history has its entry;
    the goroutine panics and the program stops. *)
Lemma EndRound_missing_history_crashes :
  ¬ survives_missing_history Sample.node Sample.world0 0.
Proof.
  intros Hclaim.
  specialize (Hclaim [] (7 : @SecretKey Sample.keys) eq_refl eq_refl).
  destruct Hclaim as [_ Halive]; [by apply list_elem_of_singleton|].
  by apply (Halive (PanicIndex 0 0)).
Qed.

Section Cancellation.
Context `{Collaborators}.

Lemma mark_done_done x : ctx_done x = true → mark_done x = x.
Proof. destruct x as [d b]. simpl. by intros ->. Qed.

Lemma cancel_done l w x :
  ctxs w !! l = Some x → ctx_done x = true → cancel l w = w.
Proof.
  intros Hl Hdone. destruct w as [cs hs xs t]. unfold cancel, set_ctxs.
  cbn [chains chans ctxs clock] in *.
  f_equal. apply list_eq. intros i. destruct (decide (l = i)) as [<-|Hne].
  - rewrite list_lookup_alter_eq. rewrite Hl. cbn. by rewrite mark_done_done.
  - by rewrite list_lookup_alter_ne.
Qed.

Lemma cancel_idempotent l w : cancel l (cancel l w) = cancel l w.
Proof.
  destruct w as [cs hs xs t]. unfold cancel, set_ctxs. simpl. f_equal.
  rewrite list_alter_alter_eq. by apply list_alter_ext.
Qed.

Lemma cancel_frame l w :
  chains (cancel l w) = chains w ∧ chans (cancel l w) = chans w
  ∧ clock (cancel l w) = clock w
  ∧ length (ctxs (cancel l w)) = length (ctxs w)
  ∧ (∀ l', l' ≠ l → ctxs (cancel l w) !! l' = ctxs w !! l')
  ∧ (∀ x, ctxs w !! l = Some x → ctxs (cancel l w) !! l = Some (mark_done x)).
Proof.
  unfold cancel. simpl. repeat split.
  - apply length_alter.
  - intros l' Hne. by apply list_lookup_alter_ne.
  - intros x Hx. by rewrite list_lookup_alter_eq, Hx.
Qed.

Lemma set_notarizeChs_nil n : notarizeChs n = [] → set_notarizeChs n [] = n.
Proof. destruct n. simpl. by intros ->. Qed.

(** C4.  [EndRound] returns without a panic, leaves the node with no
    notary input channel and with its other fields as they were, and
    calls the shared cancel function when there is one.  That call
    changes nothing but the done flag of the shared context; with no
    cancel function (no notarization was ever started) or with a context
    that is done already, the world stays as it is, and ending the round
    once more changes nothing further. *)
Theorem EndRound_cancel_idempotent n w round c :
  chains w !! chain n = Some c →
  ∃ n' w' eff,
    EndRound n w round = Normal (n', w', eff)
    ∧ notarizeChs n' = []
    ∧ (addr n' = addr n ∧ cfg n' = cfg n ∧ sk n' = sk n ∧ net n' = net n
       ∧ chain n' = chain n ∧ memberships n' = memberships n
       ∧ cancelNotarize n' = cancelNotarize n)
    ∧ (chains w' = chains w ∧ chans w' = chans w ∧ clock w' = clock w)
    ∧ match cancelNotarize n with
      | None => w' = w ∧ ∀ l, CallCancel l ∉ calls eff
      | Some l =>
          CallCancel l ∈ calls eff ∧ w' = cancel l w
          ∧ (∀ l', l' ≠ l → ctxs w' !! l' = ctxs w !! l')
          ∧ (∀ x, ctxs w !! l = Some x → ctxs w' !! l = Some (mark_done x))
          ∧ (∀ x, ctxs w !! l = Some x → ctx_done x = true → w' = w)
      end
    ∧ EndRound n' w' round = Normal (n', w', eff).
Proof.
  intros Hc. rewrite (EndRound_unfold _ _ _ _ Hc).
  eexists _, _, _. split; [reflexivity|]. simpl.
  split; [done|]. split; [done|].
  destruct (cancelNotarize n) as [l|] eqn:Hcancel.
  - destruct (cancel_frame l w) as (Hchains & Hchans & Hclock & _ & Hother & Hself).
    split; [done|]. split.
    { split; [apply list_elem_of_here|]. split; [done|]. split; [done|].
      split; [done|]. intros x Hx Hdone. by apply cancel_done with x. }
    rewrite (EndRound_unfold _ _ _ c) by exact Hc.
    simpl. rewrite Hcancel, cancel_idempotent.
    by rewrite set_notarizeChs_nil.
  - split; [done|]. split.
    { split; [done|]. intros l Hl. apply list_elem_of_singleton in Hl. discriminate. }
    rewrite (EndRound_unfold _ _ _ c) by done. simpl. rewrite Hcancel.
    by rewrite set_notarizeChs_nil.
Qed.

(** ** Between the end of a round and the start of the next *)

Lemma RecvBlockProposal_no_channel n w bp :
  notarizeChs n = [] → RecvBlockProposal n w bp = Returned w.
Proof. unfold RecvBlockProposal. by intros ->. Qed.

Lemma run_window_quiet cs : ∀ n w c,
  notarizeChs n = [] → chains w !! chain n = Some c →
  ∃ w2, run_window cs n w = Some (n, w2) ∧ chans w2 = chans w ∧ chains w2 = chains w.
Proof.
  induction cs as [|[bp|round] cs IH]; intros n w c Hnil Hc; simpl.
  - by exists w.
  - rewrite RecvBlockProposal_no_channel by done. by apply IH with c.
  - rewrite (EndRound_unfold _ _ _ _ Hc). rewrite set_notarizeChs_nil by done.
    destruct (cancelNotarize n) as [l|]; [|by apply IH with c].
    destruct (cancel_frame l w) as (Hchains & Hchans & _).
    destruct (IH n (cancel l w) c) as (w2 & Hrun & Hch & Hcs);
      [done|by rewrite Hchains|].
    exists w2. by rewrite Hrun, Hch, Hcs.
Qed.

(** C10.  After [EndRound] has returned the node has no notary input
    channel, and it has none after any further calls of
    [RecvBlockProposal] and [EndRound]: each of these calls returns, and
    [RecvBlockProposal] returns with the world untouched, so no channel
    receives the proposal.  [EndRound] leaves the memberships, the secret
    key and the chain reference of the node, and the chain itself, as
    they were. *)
Theorem EndRound_window n w round n' w' eff :
  EndRound n w round = Normal (n', w', eff) →
  notarizeChs n' = []
  ∧ (memberships n' = memberships n ∧ sk n' = sk n ∧ chain n' = chain n
     ∧ chains w' = chains w)
  ∧ (∀ w2 bp, RecvBlockProposal n' w2 bp = Returned w2)
  ∧ (∀ cs, ∃ w2, run_window cs n' w' = Some (n', w2)
       ∧ notarizeChs n' = [] ∧ chans w2 = chans w').
Proof.
  intros Hrun. destruct (EndRound_Normal_inv _ _ _ _ _ _ Hrun) as [c Hc].
  rewrite (EndRound_unfold _ _ _ _ Hc) in Hrun. inversion Hrun; subst; clear Hrun.
  simpl. split; [done|].
  assert (chains (match cancelNotarize n with Some l => cancel l w | None => w end)
          = chains w) as Hchains.
  { destruct (cancelNotarize n) as [l|]; [|done]. apply cancel_frame. }
  split; [done|]. split.
  - intros w2 bp. by apply RecvBlockProposal_no_channel.
  - intros cs. edestruct (run_window_quiet cs (set_notarizeChs n [])) as (w2 & -> & Hch & _).
    + done.
    + simpl. rewrite Hchains. exact Hc.
    + by exists w2.
Qed.

End Cancellation.

Lemma EndRound_cancel_idempotent_witness :
  ∃ n' w' eff, EndRound Sample.node Sample.world0 0 = Normal (n', w', eff)
    ∧ notarizeChs n' = [] ∧ w' = Sample.world0.
Proof.
  destruct (EndRound_cancel_idempotent Sample.node Sample.world0 0 [] eq_refl)
    as (n' & w' & eff & Hrun & Hnil & _ & _ & Hcancel & _).
  exists n', w', eff. simpl in Hcancel. by destruct Hcancel.
Defined.

Lemma EndRound_window_witness :
  ∃ w2, run_window [WinRecvBlockProposal (3%nat : @BlockProposal _ Sample.collaborators);
                    WinEndRound 0;
                    WinRecvBlockProposal (4%nat : @BlockProposal _ Sample.collaborators)]
          Sample.node Sample.world0 = Some (Sample.node, w2)
    ∧ chans w2 = [].
Proof.
  destruct (EndRound_window Sample.node Sample.world0 0 _ _ _ eq_refl)
    as (_ & _ & _ & Hwin).
  destruct (Hwin [WinRecvBlockProposal (3%nat : @BlockProposal _ Sample.collaborators);
                  WinEndRound 0;
                  WinRecvBlockProposal (4%nat : @BlockProposal _ Sample.collaborators)])
    as (w2 & Hrun & _ & Hch).
  by exists w2.
Defined.

Section RoundStart.
Context `{Collaborators}.

(** ** The start of a round *)

Lemma StartRound_propose_spec c bp m st :
  let st' := StartRound_propose c bp m st in
  rs_node st' = rs_node st ∧ rs_world st' = rs_world st
  ∧ rs_ntCancelCtx st' = rs_ntCancelCtx st
  ∧ proposals_built (calls (rs_effects st'))
    = proposals_built (calls (rs_effects st))
      ++ (if decide (groupID m = bp) then [sk (rs_node st)] else [])
  ∧ proposals_spawned (spawned (rs_effects st'))
    = proposals_spawned (spawned (rs_effects st))
      ++ (if decide (groupID m = bp) then [ProposeBlock c (sk (rs_node st))] else []).
Proof.
  unfold StartRound_propose. destruct (decide (groupID m = bp)); simpl.
  - unfold proposals_built, proposals_spawned. by rewrite !omap_app.
  - by rewrite !app_nil_r.
Qed.

Lemma StartRound_notarize_spec nt m st st' :
  StartRound_notarize nt m st = Normal st' →
  same_identity (rs_node st) (rs_node st')
  ∧ chains (rs_world st') = chains (rs_world st)
  ∧ proposals_built (calls (rs_effects st')) = proposals_built (calls (rs_effects st))
  ∧ proposals_spawned (spawned (rs_effects st'))
    = proposals_spawned (spawned (rs_effects st))
  ∧ chans (rs_world st')
    = chans (rs_world st) ++ (if decide (groupID m = nt) then [fresh_chan] else [])
  ∧ notarizeChs (rs_node st')
    = notarizeChs (rs_node st)
      ++ (if decide (groupID m = nt) then [length (chans (rs_world st))] else []).
Proof.
  unfold StartRound_notarize, same_identity.
  destruct (decide (groupID m = nt)) as [Heq|Hne].
  - destruct (rs_ntCancelCtx st) as [l|]; simpl;
      unfold SK_MustGet, mbind, outcome_bind, Go.bind;
      (destruct (SK_Get (sk (rs_node st))) as [k|err]; [|discriminate]);
      intros [= <-]; simpl; unfold proposals_built, proposals_spawned;
      rewrite ?omap_app; simpl; by rewrite ?app_nil_r.
  - intros [= <-]. by rewrite !app_nil_r.
Qed.

Lemma StartRound_notarize_total nt m st k :
  SK_Get (sk (rs_node st)) = inl k → ∃ st', StartRound_notarize nt m st = Normal st'.
Proof.
  intros Hk. unfold StartRound_notarize.
  destruct (decide (groupID m = nt)); [|by eexists].
  destruct (rs_ntCancelCtx st) as [l|]; simpl;
    unfold SK_MustGet, mbind, outcome_bind, Go.bind; rewrite Hk; by eexists.
Qed.

Lemma StartRound_loop_spec c bp nt ms : ∀ st st',
  StartRound_loop c bp nt ms st = Normal st' →
  same_identity (rs_node st) (rs_node st')
  ∧ chains (rs_world st') = chains (rs_world st)
  ∧ proposals_built (calls (rs_effects st'))
    = proposals_built (calls (rs_effects st))
      ++ ((λ _, sk (rs_node st)) <$> filter (λ m, groupID m = bp) ms)
  ∧ proposals_spawned (spawned (rs_effects st'))
    = proposals_spawned (spawned (rs_effects st))
      ++ ((λ _, ProposeBlock c (sk (rs_node st))) <$> filter (λ m, groupID m = bp) ms)
  ∧ (let k := length (filter (λ m, groupID m = nt) ms) in
     chans (rs_world st') = chans (rs_world st) ++ replicate k fresh_chan
     ∧ notarizeChs (rs_node st')
       = notarizeChs (rs_node st) ++ seq (length (chans (rs_world st))) k).
Proof.
  induction ms as [|m ms IH]; intros st st' Hrun; simpl in Hrun.
  - inversion Hrun; subst. unfold same_identity. simpl. by rewrite !app_nil_r.
  - unfold mbind, outcome_bind, Go.bind in Hrun.
    destruct (StartRound_notarize nt m (StartRound_propose c bp m st))
      as [st1|p] eqn:Hstep; [|discriminate].
    destruct (StartRound_propose_spec c bp m st) as (Hn & Hw & _ & Hbuilt & Hspawned).
    cbv zeta in *.
    destruct (StartRound_notarize_spec _ _ _ _ Hstep)
      as (Hid1 & Hch1 & Hb1 & Hs1 & Hchans1 & Hchs1).
    destruct (IH _ _ Hrun) as (Hid2 & Hch2 & Hb2 & Hs2 & Hchans2 & Hchs2).
    rewrite Hn, Hw in *.
    unfold same_identity in *.
    destruct Hid1 as (Ha1 & Hc1 & Hsk1 & Hnet1 & Hchain1 & Hms1).
    destruct Hid2 as (Ha2 & Hc2 & Hsk2 & Hnet2 & Hchain2 & Hms2).
    split; [repeat split; congruence|]. split; [congruence|].
    rewrite Hb2, Hs2, Hb1, Hs1, Hbuilt, Hspawned, Hsk1, Hchans2, Hchs2, Hchans1, Hchs1.
    rewrite <- !app_assoc.
    destruct (decide (groupID m = bp)) as [Hbp|Hbp];
      [rewrite (filter_cons_True (λ m, groupID m = bp)) by done
      |rewrite (filter_cons_False (λ m, groupID m = bp)) by done];
      (destruct (decide (groupID m = nt)) as [Hnt|Hnt];
       [rewrite (filter_cons_True (λ m, groupID m = nt)) by done
       |rewrite (filter_cons_False (λ m, groupID m = nt)) by done]);
      simpl; rewrite ?app_nil_r, ?length_app; simpl;
      rewrite ?Nat.add_1_r; rewrite <- ?app_assoc; done.
Qed.

Lemma StartRound_loop_total c bp nt ms k : ∀ st,
  SK_Get (sk (rs_node st)) = inl k → ∃ st', StartRound_loop c bp nt ms st = Normal st'.
Proof.
  induction ms as [|m ms IH]; intros st Hk; simpl; [by eexists|].
  destruct (StartRound_notarize_total nt m (StartRound_propose c bp m st) k)
    as [st1 Hstep].
  { by destruct (StartRound_propose_spec c bp m st) as (-> & _). }
  rewrite Hstep. unfold mbind, outcome_bind, Go.bind. apply IH.
  destruct (StartRound_notarize_spec _ _ _ _ Hstep) as ((_ & _ & -> & _) & _).
  by destruct (StartRound_propose_spec c bp m st) as (-> & _).
Qed.

Lemma StartRound_unfold n w round c :
  chains w !! chain n = Some c →
  _StartRound n w round =
  match StartRound_loop c (Committees c round).1.2 (Committees c round).2 (memberships n)
          {| rs_node := n; rs_world := w; rs_ntCancelCtx := None;
             rs_effects := {| calls := [CallCommittees round]; spawned := [] |} |} with
  | Normal st => Normal (rs_node st, rs_world st, rs_effects st)
  | Panics p => Panics p
  end.
Proof.
  intros Hc. unfold _StartRound. rewrite Hc.
  by destruct (Committees c round) as [[rb bp] nt].
Qed.

(** C3, as amended.  For each local membership in the proposer committee
    [_StartRound] builds the proposal itself, by a call of
    [ProposeBlock] made before it returns (so while it holds the lock),
    and spawns one goroutine that hands that proposal to the network;
    only this hand-over is asynchronous.  [_StartRound] returns whenever
    the node key can be retrieved. *)
Theorem StartRound_builds_proposal_itself n w round c :
  chains w !! chain n = Some c →
  ((∃ k, SK_Get (sk n) = inl k) →
     ∃ n' w' eff, _StartRound n w round = Normal (n', w', eff))
  ∧ ∀ n' w' eff, _StartRound n w round = Normal (n', w', eff) →
      let proposers :=
        filter (λ m, groupID m = (Committees c round).1.2) (memberships n) in
      proposals_built (calls eff) = (λ _, sk n) <$> proposers
      ∧ proposals_spawned (spawned eff) = (λ _, ProposeBlock c (sk n)) <$> proposers
      ∧ ∀ bp, run_Proposal n' bp = Normal (recvBlockProposal (myself (net n)) bp).
Proof.
  intros Hc. rewrite (StartRound_unfold _ _ _ _ Hc). split.
  - intros [k Hk].
    edestruct (StartRound_loop_total c) as [st ->]; [exact Hk|]. by eexists _, _, _.
  - intros n' w' eff Hrun.
    destruct (StartRound_loop _ _ _ _ _) as [st|p] eqn:Hloop; [|discriminate].
    inversion Hrun; subst; clear Hrun.
    destruct (StartRound_loop_spec _ _ _ _ _ _ Hloop)
      as ((_ & _ & _ & Hnet & _) & _ & Hbuilt & Hspawned & _).
    simpl in *. split; [done|]. split; [done|].
    intros bp. unfold run_Proposal. by rewrite Hnet.
Qed.

End RoundStart.

Lemma StartRound_builds_proposal_itself_witness :
  ∃ n' w' eff, _StartRound Sample.node Sample.world0 0 = Normal (n', w', eff)
    ∧ proposals_built (calls eff) = [sk Sample.node]
    ∧ proposals_spawned (spawned eff) = [0%nat : @BlockProposal _ Sample.collaborators].
Proof.
  destruct (StartRound_builds_proposal_itself Sample.node Sample.world0 0 [] eq_refl)
    as [Htotal Hspec].
  destruct Htotal as (n' & w' & eff & Hrun); [by eexists|].
  exists n', w', eff. split; [done|].
  destruct (Hspec n' w' eff Hrun) as (Hbuilt & Hspawned & _). done.
Defined.

(** C3 as stated fails: the node of the sample is in the proposer
    committee of round 0, and its [_StartRound] has built the proposal by
    the time it returns. *)
Lemma StartRound_proposal_is_synchronous :
  ¬ proposes_asynchronously Sample.node Sample.world0 0.
Proof.
  intros Hclaim. specialize (Hclaim _ _ _ eq_refl). discriminate Hclaim.
Qed.

Section Routing.
Context `{Collaborators}.

(** ** Routing a proposal to the notaries *)

Lemma send_Some ch bp w c :
  chans w !! ch = Some c → (length (ch_buf c) < ch_cap c)%nat →
  send ch bp w
  = Some (set_chans w
            (<[ch := {| ch_cap := ch_cap c; ch_buf := ch_buf c ++ [bp] |}]> (chans w))).
Proof. intros Hc Hlt. unfold send. rewrite Hc. by rewrite decide_True. Qed.

Lemma send_None ch bp w : ¬ has_room ch w → send ch bp w = None.
Proof.
  intros Hfull. unfold send. destruct (chans w !! ch) as [c|] eqn:Hc; [|done].
  destruct (decide (length (ch_buf c) < ch_cap c)%nat) as [Hlt|]; [|done].
  destruct Hfull. by exists c.
Qed.

Lemma send_has_room ch bp w w' : send ch bp w = Some w' → has_room ch w.
Proof.
  unfold send. destruct (chans w !! ch) as [c|] eqn:Hc; [|done].
  destruct (decide (length (ch_buf c) < ch_cap c)%nat) as [Hlt|]; [|done].
  intros _. by exists c.
Qed.

Lemma receive_other ch ch' p w w' :
  receive ch w = Some (p, w') → ch ≠ ch' → chans w' !! ch' = chans w !! ch'.
Proof.
  unfold receive. destruct (chans w !! ch) as [c|]; [|done].
  destruct (ch_buf c) as [|q buf]; [done|]. intros [= _ <-] Hne. simpl.
  by apply list_lookup_insert_ne.
Qed.

Lemma RecvBlockProposal_loop_room bp chs : ∀ w,
  NoDup chs → (∀ ch, ch ∈ chs → has_room ch w) →
  ∃ w', RecvBlockProposal_loop bp chs w = Returned w'
    ∧ (∀ ch c, ch ∈ chs → chans w !! ch = Some c →
         chans w' !! ch = Some {| ch_cap := ch_cap c; ch_buf := ch_buf c ++ [bp] |})
    ∧ (∀ ch, ch ∉ chs → chans w' !! ch = chans w !! ch).
Proof.
  induction chs as [|ch chs IH]; intros w Hnd Hroom; simpl.
  - exists w. split; [done|]. split; [|done]. intros ch c Hin. by apply elem_of_nil in Hin.
  - apply NoDup_cons in Hnd as [Hfresh Hnd].
    destruct (Hroom ch) as (c & Hc & Hlt); [apply list_elem_of_here|].
    rewrite (send_Some _ _ _ _ Hc Hlt).
    set (w1 := set_chans w _).
    assert (∀ x, x ≠ ch → chans w1 !! x = chans w !! x) as Hother.
    { intros x Hne. simpl. by apply list_lookup_insert_ne. }
    destruct (IH w1 Hnd) as (w' & -> & Hsent & Hrest).
    { intros x Hx. destruct (Hroom x) as (cx & Hcx & Hltx); [by apply list_elem_of_further|].
      exists cx. split; [|done]. rewrite Hother; [done|]. by intros ->. }
    exists w'. split; [done|]. split.
    + intros x cx Hx Hcx. apply elem_of_cons in Hx as [->|Hx].
      * rewrite Hrest by done. simpl. rewrite list_lookup_insert_eq.
        -- congruence.
        -- by eapply lookup_lt_Some.
      * apply Hsent; [done|]. rewrite Hother; [done|]. by intros ->.
    + intros x Hx. apply not_elem_of_cons in Hx as [Hne Hx].
      rewrite Hrest by done. by apply Hother.
Qed.

Lemma RecvBlockProposal_loop_blocks bp pre ch post : ∀ w,
  NoDup (pre ++ ch :: post) → (∀ x, x ∈ pre → has_room x w) → ¬ has_room ch w →
  ∃ w', RecvBlockProposal_loop bp (pre ++ ch :: post) w = Blocked ch post w'
    ∧ ¬ has_room ch w'
    ∧ (∀ x, x ∈ ch :: post → chans w' !! x = chans w !! x).
Proof.
  induction pre as [|a pre IH]; intros w Hnd Hroom Hfull; simpl.
  - rewrite send_None by done. by exists w.
  - simpl in Hnd. apply NoDup_cons in Hnd as [Hfresh Hnd].
    destruct (Hroom a) as (c & Hc & Hlt); [apply list_elem_of_here|].
    rewrite (send_Some _ _ _ _ Hc Hlt).
    set (w1 := set_chans w _).
    assert (∀ x, x ≠ a → chans w1 !! x = chans w !! x) as Hother.
    { intros x Hne. simpl. by apply list_lookup_insert_ne. }
    assert (∀ x, x ∈ pre ++ ch :: post → x ≠ a) as Hne by (by intros x Hx ->).
    destruct (IH w1 Hnd) as (w' & -> & Hfull' & Hrest).
    { intros x Hx. destruct (Hroom x) as (cx & Hcx & Hltx); [by apply list_elem_of_further|].
      exists cx. split; [|done]. rewrite Hother; [done|].
      apply Hne. apply elem_of_app. by left. }
    { intros (cx & Hcx & Hltx). apply Hfull. exists cx. split; [|done].
      rewrite <- Hother; [done|]. apply Hne. apply elem_of_app. right.
      apply list_elem_of_here. }
    exists w'. split; [done|]. split; [done|].
    intros x Hx. rewrite Hrest by done. apply Hother, Hne.
    apply elem_of_app. by right.
Qed.

(** Once the sender is at a channel without room whose notary does not
    receive, no step of the system moves the sender. *)
Lemma recv_step_blocked bp (reading : loc → Prop) ch rest st st' :
  ¬ reading ch →
  rtc (recv_step bp reading) st st' →
  st.1 = ch :: rest → ¬ has_room ch st.2 →
  st'.1 = ch :: rest ∧ ¬ has_room ch st'.2.
Proof.
  intros Hquiet Hsteps. induction Hsteps as [st|st st1 st2 Hstep _ IH]; [done|].
  intros Hpending Hfull. apply IH; destruct Hstep as [a rest' w w' Hsend|a p pending w w' Hr Hrecv];
    simpl in *.
  - inversion Hpending; subst. destruct Hfull. by eapply send_has_room.
  - done.
  - inversion Hpending; subst. destruct Hfull. by eapply send_has_room.
  - intros (c & Hc & Hlt). apply Hfull. exists c. split; [|done].
    rewrite <- (receive_other _ _ _ _ _ Hrecv); [done|]. by intros ->.
Qed.

(** C2, as amended.  [RecvBlockProposal] sends the proposal to the notary
    input channels in their order.  When every channel has room in its
    buffer the call returns and each channel has got the proposal at the
    end of its queue.  At the first channel without room the call stays:
    it does not move on while the notary of that channel does not
    receive, so the channels after it get nothing.  The channels
    [_StartRound] makes are distinct, empty and of capacity 20. *)
Theorem RecvBlockProposal_delivery n w bp :
  (NoDup (notarizeChs n) → (∀ ch, ch ∈ notarizeChs n → has_room ch w) →
     ∃ w', RecvBlockProposal n w bp = Returned w'
       ∧ (∀ ch c, ch ∈ notarizeChs n → chans w !! ch = Some c →
            chans w' !! ch = Some {| ch_cap := ch_cap c; ch_buf := ch_buf c ++ [bp] |})
       ∧ (∀ ch, ch ∉ notarizeChs n → chans w' !! ch = chans w !! ch))
  ∧ (∀ pre ch post, notarizeChs n = pre ++ ch :: post → NoDup (notarizeChs n) →
       (∀ x, x ∈ pre → has_room x w) → ¬ has_room ch w →
       ∃ w', RecvBlockProposal n w bp = Blocked ch post w'
         ∧ (∀ x, x ∈ post → chans w' !! x = chans w !! x)
         ∧ (∀ (reading : loc → Prop) st, ¬ reading ch →
              rtc (recv_step bp reading) (ch :: post, w') st →
              st.1 = ch :: post ∧ ∀ x, x ∈ post → ¬ delivered x st))
  ∧ (∀ round n' w' eff, notarizeChs n = [] →
       _StartRound n w round = Normal (n', w', eff) →
       NoDup (notarizeChs n')
       ∧ ∀ ch, ch ∈ notarizeChs n' → chans w' !! ch = Some fresh_chan).
Proof.
  unfold RecvBlockProposal. split; [|split].
  - apply RecvBlockProposal_loop_room.
  - intros pre ch post -> Hnd Hroom Hfull.
    destruct (RecvBlockProposal_loop_blocks bp pre ch post w Hnd Hroom Hfull)
      as (w' & -> & Hfull' & Hrest).
    exists w'. split; [done|]. split.
    + intros x Hx. apply Hrest. by apply list_elem_of_further.
    + intros reading st Hquiet Hsteps.
      destruct (recv_step_blocked bp reading ch post _ _ Hquiet Hsteps eq_refl Hfull')
        as [Hpending _].
      split; [done|]. intros x Hx Hdel. apply Hdel. rewrite Hpending.
      by apply list_elem_of_further.
  - intros round n' w' eff Hnil Hrun.
    destruct (chains w !! chain n) as [c|] eqn:Hc;
      [|unfold _StartRound in Hrun; by rewrite Hc in Hrun].
    rewrite (StartRound_unfold _ _ _ _ Hc) in Hrun.
    destruct (StartRound_loop _ _ _ _ _) as [st|p] eqn:Hloop; [|discriminate].
    inversion Hrun; subst; clear Hrun.
    destruct (StartRound_loop_spec _ _ _ _ _ _ Hloop) as (_ & _ & _ & _ & Hchans & Hchs).
    simpl in Hchans, Hchs. rewrite Hnil in Hchs. simpl in Hchs.
    rewrite Hchs, Hchans. split; [apply NoDup_seq|].
    intros ch Hch. apply list_elem_of_lookup in Hch as [i Hi].
    apply lookup_seq in Hi as [-> Hi].
    rewrite lookup_app_r by lia.
    replace (length (chans w) + i - length (chans w))%nat with i by lia.
    by apply lookup_replicate_2.
Qed.

End Routing.

Lemma RecvBlockProposal_delivery_witness :
  (∃ w', RecvBlockProposal (set_notarizeChs Sample.node [1%nat]) Sample.world_full
           (3%nat : @BlockProposal _ Sample.collaborators) = Returned w')
  ∧ RecvBlockProposal Sample.node_two_chs Sample.world_full
      (3%nat : @BlockProposal _ Sample.collaborators)
    = Blocked 0%nat [1%nat] Sample.world_full
  ∧ (∃ n' w' eff, _StartRound Sample.node Sample.world0 0 = Normal (n', w', eff)
       ∧ NoDup (notarizeChs n')).
Proof.
  split; [|split].
  - destruct (RecvBlockProposal_delivery (set_notarizeChs Sample.node [1%nat])
                Sample.world_full (3%nat : @BlockProposal _ Sample.collaborators))
      as (Hroom & _ & _).
    destruct Hroom as (w' & Hrun & _).
    + apply NoDup_singleton.
    + intros ch Hch. apply list_elem_of_singleton in Hch as ->.
      exists Sample.empty_chan. split; [done|]. simpl. unfold notarizeChCap. lia.
    + by exists w'.
  - destruct (RecvBlockProposal_delivery Sample.node_two_chs
                Sample.world_full (3%nat : @BlockProposal _ Sample.collaborators))
      as (_ & Hblock & _).
    destruct (Hblock [] 0%nat [1%nat]) as (w' & Hrun & _).
    + done.
    + apply NoDup_cons. split; [|apply NoDup_singleton].
      intros Hin. by apply list_elem_of_singleton in Hin.
    + intros x Hx. by apply elem_of_nil in Hx.
    + intros (c & Hc & Hlt). inversion Hc; subst. vm_compute in Hlt. lia.
    + rewrite Hrun. f_equal. vm_compute in Hrun. by inversion Hrun.
  - destruct (RecvBlockProposal_delivery Sample.node Sample.world0
                (3%nat : @BlockProposal _ Sample.collaborators)) as (_ & _ & Hmake).
    eexists _, _, _. split; [reflexivity|].
    by apply (Hmake 0%N _ _ _ eq_refl eq_refl).
Defined.

(** The channels of [Sample.world_full] arise from [_StartRound] with two
    notary memberships followed by twenty proposals of which only the
    second notary takes its copies. *)
Example full_channel_reachable :
  ∃ n' w' eff w2,
    _StartRound Sample.node_two_notaries Sample.world0 0 = Normal (n', w', eff)
    ∧ notarizeChs n' = notarizeChs Sample.node_two_chs
    ∧ Sample.flood 20 1 n' w' = Some w2
    ∧ chans w2 = chans Sample.world_full.
Proof.
  eexists _, _, _, _. split; [reflexivity|]. split; [reflexivity|].
  split; [vm_compute; reflexivity|reflexivity].
Qed.

(** C2 as stated fails: with the first of two notary channels full and its
    notary not receiving, the proposal never reaches the second channel,
    whose notary is receiving. *)
Lemma RecvBlockProposal_blocked_by_full_channel :
  ¬ not_blocked_by_others (3%nat : @BlockProposal _ Sample.collaborators)
      [0%nat; 1%nat] Sample.world_full.
Proof.
  intros Hclaim.
  destruct (Hclaim 1%nat) as (st & Hsteps & Hdel).
  { apply list_elem_of_further, list_elem_of_here. }
  destruct (recv_step_blocked _ _ 0%nat [1%nat] _ _ (λ H : 0%nat = 1%nat, O_S _ H) Hsteps eq_refl)
    as [Hpending _].
  - intros (c & Hc & Hlt). inversion Hc; subst. vm_compute in Hlt. lia.
  - apply Hdel. rewrite Hpending. apply list_elem_of_further, list_elem_of_here.
Qed.

Section Beacon.
Context `{Collaborators}.

(** ** Committee selection *)


End Beacon.


(** ** The market-symbol key *)

Module MarketFacts.
Import Market.

Lemma length_le_bytes k : ∀ x, length (le_bytes k x) = k.
Proof. induction k as [|k IH]; intros x; simpl; [done|]. by rewrite IH. Qed.

Lemma le_bytes_range k : ∀ x b, b ∈ le_bytes k x → 0 <= b < 256.
Proof.
  induction k as [|k IH]; intros x b Hb; simpl in Hb.
  - by apply elem_of_nil in Hb.
  - apply elem_of_cons in Hb as [->|Hb]; [|by eapply IH].
    apply Z.mod_pos_bound. lia.
Qed.

Lemma le_value_le_bytes k : ∀ x,
  0 <= x < 256 ^ Z.of_nat k → le_value (le_bytes k x) = x.
Proof.
  induction k as [|k IH]; intros x Hx; simpl.
  - simpl in Hx. lia.
  - rewrite IH.
    + pose proof (Z.div_mod x 256). lia.
    + rewrite Nat2Z.inj_succ, Z.pow_succ_r in Hx by lia.
      split; [apply Z.div_pos; lia|]. apply Z.div_lt_upper_bound; lia.
Qed.

Lemma length_PutUint64 o x : length (PutUint64 o x) = 8%nat.
Proof.
  destruct o; unfold PutUint64; rewrite ?length_rev; apply length_le_bytes.
Qed.

Lemma Uint64_PutUint64 o x : 0 <= x < 2 ^ 64 → Uint64 o (PutUint64 o x) = x.
Proof.
  intros Hx. destruct o; unfold Uint64, PutUint64; rewrite ?rev_involutive;
    by apply (le_value_le_bytes 8).
Qed.

Lemma PutUint64_range o x b : b ∈ PutUint64 o x → 0 <= b < 256.
Proof.
  destruct o; unfold PutUint64; intros Hb.
  - by eapply le_bytes_range.
  - apply list_elem_of_In, in_rev, list_elem_of_In in Hb. by eapply le_bytes_range.
Qed.

Lemma Decode_Encode o m : wf m → Decode o (Encode o m) = inl m.
Proof.
  intros [Hq Hb]. unfold Decode, Encode.
  rewrite decide_True by (by rewrite length_app, !length_PutUint64).
  rewrite take_app_length' by (by rewrite length_PutUint64).
  rewrite drop_app_length' by (by rewrite length_PutUint64).
  rewrite !Uint64_PutUint64 by done. by destruct m.
Qed.

(** C8.  For either byte order, decoding the encoding of a market symbol
    with 64-bit fields gives the market symbol back, the encoding is 16
    bytes long, and two market symbols that differ in [Quote] or in
    [Base] have different encodings. *)
Theorem MarketSymbol_roundtrip_injective (o : byte_order) :
  (∀ m, wf m →
     Decode o (Encode o m) = inl m
     ∧ length (Encode o m) = 16%nat
     ∧ ∀ b, b ∈ Encode o m → 0 <= b < 256)
  ∧ (∀ m1 m2, wf m1 → wf m2 →
       Quote m1 ≠ Quote m2 ∨ Base m1 ≠ Base m2 →
       Encode o m1 ≠ Encode o m2).
Proof.
  split.
  - intros m Hm. split; [by apply Decode_Encode|]. split.
    + unfold Encode. by rewrite length_app, !length_PutUint64.
    + unfold Encode. intros b Hb.
      apply elem_of_app in Hb as [Hb|Hb]; by eapply PutUint64_range.
  - intros m1 m2 Hm1 Hm2 Hdiff Heq.
    assert (inl m1 = (inl m2 : MarketSymbol + string)) as Hm.
    { rewrite <- (Decode_Encode o m1), <- (Decode_Encode o m2) by done. by rewrite Heq. }
    inversion Hm; subst. by destruct Hdiff.
Qed.

(** [TestMarketSymbolBytes] *)
Example TestMarketSymbolBytes o : Encode o test_m0 ≠ Encode o test_m1.
Proof. by destruct o. Qed.

(** [TestMarketEncodeDecode] *)
Example TestMarketEncodeDecode o : Decode o (Encode o test_m) = inl test_m.
Proof. by destruct o. Qed.

End MarketFacts.

Lemma MarketSymbol_roundtrip_injective_witness :
  Market.Decode Market.BigEndian (Market.Encode Market.BigEndian Market.test_m)
  = inl Market.test_m
  ∧ Market.Encode Market.LittleEndian Market.test_m0
    ≠ Market.Encode Market.LittleEndian Market.test_m1.
Proof.
  split.
  - apply (MarketFacts.MarketSymbol_roundtrip_injective Market.BigEndian).
    unfold Market.wf. simpl. lia.
  - apply (MarketFacts.MarketSymbol_roundtrip_injective Market.LittleEndian).
    + unfold Market.wf. simpl. lia.
    + unfold Market.wf. simpl. lia.
    + right. simpl. lia.
Defined.

(** * Further properties of the node *)

Section RoundStartMore.
Context `{Collaborators}.

(** ** What [_StartRound] sets up for the notaries *)

Lemma StartRound_propose_frame c bp m st :
  let st' := StartRound_propose c bp m st in
  rs_node st' = rs_node st ∧ rs_world st' = rs_world st
  ∧ rs_ntCancelCtx st' = rs_ntCancelCtx st
  ∧ notaries_spawned (spawned (rs_effects st'))
    = notaries_spawned (spawned (rs_effects st)).
Proof.
  unfold StartRound_propose. destruct (decide (groupID m = bp)); simpl; [|done].
  unfold notaries_spawned. rewrite omap_app. simpl. by rewrite app_nil_r.
Qed.

Lemma StartRound_notarize_skip nt m st :
  groupID m ≠ nt → StartRound_notarize nt m st = Normal st.
Proof. intros Hne. unfold StartRound_notarize. by rewrite decide_False. Qed.

Lemma StartRound_notarize_bad_key nt m st err :
  groupID m = nt → SK_Get (sk (rs_node st)) = inr err →
  StartRound_notarize nt m st = Panics (PanicError err).
Proof.
  intros Heq Hget. unfold StartRound_notarize. rewrite decide_True by done.
  destruct (rs_ntCancelCtx st) as [l|]; simpl;
    unfold SK_MustGet, mbind, outcome_bind, Go.bind; by rewrite Hget.
Qed.

Lemma StartRound_notarize_match nt m st key :
  groupID m = nt → SK_Get (sk (rs_node st)) = inl key →
  ∃ st', StartRound_notarize nt m st = Normal st'
    ∧ clock (rs_world st') = clock (rs_world st)
    ∧ match rs_ntCancelCtx st with
      | Some l =>
          rs_ntCancelCtx st' = Some l
          ∧ cancelNotarize (rs_node st') = cancelNotarize (rs_node st)
          ∧ ctxs (rs_world st')
            = ctxs (rs_world st) ++ [deadline_ctx (rs_world st) (rs_node st)]
          ∧ notaries_spawned (spawned (rs_effects st'))
            = notaries_spawned (spawned (rs_effects st))
              ++ [(NewNotary (addr (rs_node st)) key (skShare m) (chain (rs_node st)),
                   length (ctxs (rs_world st)), l, length (chans (rs_world st)))]
      | None =>
          rs_ntCancelCtx st' = Some (length (ctxs (rs_world st)))
          ∧ cancelNotarize (rs_node st') = Some (length (ctxs (rs_world st)))
          ∧ ctxs (rs_world st')
            = ctxs (rs_world st) ++ [cancel_ctx; deadline_ctx (rs_world st) (rs_node st)]
          ∧ notaries_spawned (spawned (rs_effects st'))
            = notaries_spawned (spawned (rs_effects st))
              ++ [(NewNotary (addr (rs_node st)) key (skShare m) (chain (rs_node st)),
                   S (length (ctxs (rs_world st))), length (ctxs (rs_world st)),
                   length (chans (rs_world st)))]
      end.
Proof.
  intros Heq Hget. unfold StartRound_notarize. rewrite decide_True by done.
  destruct (rs_ntCancelCtx st) as [l|]; simpl;
    unfold SK_MustGet, mbind, outcome_bind, Go.bind; rewrite Hget; simpl;
    eexists; (split; [reflexivity|]); simpl; unfold notaries_spawned;
    rewrite ?omap_app, ?length_app; simpl; rewrite ?app_nil_r, ?Nat.add_1_r;
    rewrite <- ?app_assoc; done.
Qed.

(** The pieces of a notarization goroutine made for the [i]-th notary
    membership of a round, when the contexts of the round start at [ctx0],
    the shared one is [l] and the channels start at [ch0]. *)
Lemma StartRound_loop_notaries_Some c bp nt ms : ∀ st st' l,
  rs_ntCancelCtx st = Some l →
  StartRound_loop c bp nt ms st = Normal st' →
  let nts := filter (λ m, groupID m = nt) ms in
  rs_ntCancelCtx st' = Some l
  ∧ cancelNotarize (rs_node st') = cancelNotarize (rs_node st)
  ∧ clock (rs_world st') = clock (rs_world st)
  ∧ ctxs (rs_world st')
    = ctxs (rs_world st)
      ++ replicate (length nts) (deadline_ctx (rs_world st) (rs_node st))
  ∧ (nts = [] ∨ ∃ key, SK_Get (sk (rs_node st)) = inl key)
  ∧ ∀ key, SK_Get (sk (rs_node st)) = inl key →
      notaries_spawned (spawned (rs_effects st'))
      = notaries_spawned (spawned (rs_effects st))
        ++ imap (λ i m, (NewNotary (addr (rs_node st)) key (skShare m) (chain (rs_node st)),
                         (length (ctxs (rs_world st)) + i)%nat, l,
                         (length (chans (rs_world st)) + i)%nat)) nts.
Proof.
  induction ms as [|m ms IH]; intros st st' l Hl Hrun; simpl in Hrun.
  - inversion Hrun; subst. simpl. rewrite !app_nil_r. repeat split; auto.
  - unfold mbind, outcome_bind, Go.bind in Hrun.
    destruct (StartRound_propose_frame c bp m st) as (Hn0 & Hw0 & Hc0 & Hs0).
    cbv zeta in *. set (st0 := StartRound_propose c bp m st) in *.
    destruct (decide (groupID m = nt)) as [Heq|Hne].
    + rewrite (filter_cons_True (λ m, groupID m = nt)) by done.
      destruct (SK_Get (sk (rs_node st0))) as [key|err] eqn:Hget;
        [|by rewrite (StartRound_notarize_bad_key _ _ _ _ Heq Hget) in Hrun].
      destruct (StartRound_notarize_match nt m st0 key Heq Hget)
        as (st1 & Hstep & Hclk & Hmatch).
      rewrite Hstep in Hrun. rewrite Hc0, Hl in Hmatch.
      destruct Hmatch as (Hl1 & Hcn1 & Hctx1 & Hnot1).
      destruct (StartRound_notarize_spec _ _ _ _ Hstep)
        as ((Ha & Hcfg & Hsk & _ & Hchain & _) & _ & _ & _ & Hchans1 & _).
      rewrite decide_True in Hchans1 by done.
      destruct (IH _ _ _ Hl1 Hrun) as (Hl' & Hcn' & Hclk' & Hctx' & _ & Hnot').
      rewrite Hn0, Hw0 in *.
      assert (deadline_ctx (rs_world st1) (rs_node st1)
              = deadline_ctx (rs_world st) (rs_node st)) as Hd.
      { unfold deadline_ctx. by rewrite Hclk, Hcfg. }
      split; [done|]. split; [congruence|]. split; [congruence|]. split.
      { rewrite Hctx', Hctx1, Hd, <- app_assoc. done. }
      split; [right; by exists key|].
      intros key' Hget'. assert (key' = key) as -> by congruence.
      rewrite (Hnot' key) by congruence.
      rewrite Hnot1, Hs0, <- app_assoc. f_equal. simpl.
      rewrite !Nat.add_0_r. f_equal.
      apply imap_ext. intros i x _. simpl.
      rewrite Ha, Hchain, Hctx1, Hchans1, !length_app. simpl.
      repeat (match goal with |- (_, _) = (_, _) => f_equal end); lia.
    + rewrite (filter_cons_False (λ m, groupID m = nt)) by done.
      rewrite (StartRound_notarize_skip _ _ _ Hne) in Hrun.
      destruct (IH st0 st' l) as (Hl' & Hcn' & Hclk' & Hctx' & Hkey' & Hnot');
        [congruence|done|].
      rewrite Hn0, Hw0, Hs0 in *. done.
Qed.

Lemma StartRound_loop_notaries_None c bp nt ms : ∀ st st',
  rs_ntCancelCtx st = None →
  StartRound_loop c bp nt ms st = Normal st' →
  let nts := filter (λ m, groupID m = nt) ms in
  clock (rs_world st') = clock (rs_world st)
  ∧ (nts = [] →
       cancelNotarize (rs_node st') = cancelNotarize (rs_node st)
       ∧ ctxs (rs_world st') = ctxs (rs_world st)
       ∧ notaries_spawned (spawned (rs_effects st'))
         = notaries_spawned (spawned (rs_effects st)))
  ∧ (nts ≠ [] →
       (∃ key, SK_Get (sk (rs_node st)) = inl key)
       ∧ cancelNotarize (rs_node st') = Some (length (ctxs (rs_world st)))
       ∧ ctxs (rs_world st')
         = ctxs (rs_world st)
           ++ cancel_ctx :: replicate (length nts) (deadline_ctx (rs_world st) (rs_node st))
       ∧ ∀ key, SK_Get (sk (rs_node st)) = inl key →
           notaries_spawned (spawned (rs_effects st'))
           = notaries_spawned (spawned (rs_effects st))
             ++ imap (λ i m, (NewNotary (addr (rs_node st)) key (skShare m)
                                (chain (rs_node st)),
                              S (length (ctxs (rs_world st)) + i),
                              length (ctxs (rs_world st)),
                              (length (chans (rs_world st)) + i)%nat)) nts).
Proof.
  induction ms as [|m ms IH]; intros st st' Hnone Hrun; simpl in Hrun.
  - inversion Hrun; subst. simpl. done.
  - unfold mbind, outcome_bind, Go.bind in Hrun.
    destruct (StartRound_propose_frame c bp m st) as (Hn0 & Hw0 & Hc0 & Hs0).
    cbv zeta in *. set (st0 := StartRound_propose c bp m st) in *.
    destruct (decide (groupID m = nt)) as [Heq|Hne].
    + rewrite (filter_cons_True (λ m, groupID m = nt)) by done.
      destruct (SK_Get (sk (rs_node st0))) as [key|err] eqn:Hget;
        [|by rewrite (StartRound_notarize_bad_key _ _ _ _ Heq Hget) in Hrun].
      destruct (StartRound_notarize_match nt m st0 key Heq Hget)
        as (st1 & Hstep & Hclk & Hmatch).
      rewrite Hstep in Hrun. rewrite Hc0, Hnone in Hmatch.
      destruct Hmatch as (Hl1 & Hcn1 & Hctx1 & Hnot1).
      destruct (StartRound_notarize_spec _ _ _ _ Hstep)
        as ((Ha & Hcfg & Hsk & _ & Hchain & _) & _ & _ & _ & Hchans1 & _).
      rewrite decide_True in Hchans1 by done.
      destruct (StartRound_loop_notaries_Some _ _ _ _ _ _ _ Hl1 Hrun)
        as (_ & Hcn' & Hclk' & Hctx' & _ & Hnot').
      rewrite Hn0, Hw0 in *.
      assert (deadline_ctx (rs_world st1) (rs_node st1)
              = deadline_ctx (rs_world st) (rs_node st)) as Hd.
      { unfold deadline_ctx. by rewrite Hclk, Hcfg. }
      split; [congruence|]. split; [done|]. intros _.
      split; [by exists key|]. split; [congruence|]. split.
      { rewrite Hctx', Hctx1, Hd, <- app_assoc. done. }
      intros key' Hget'. assert (key' = key) as -> by congruence.
      rewrite (Hnot' key) by congruence.
      rewrite Hnot1, Hs0, <- app_assoc. f_equal. simpl.
      rewrite !Nat.add_0_r. f_equal.
      apply imap_ext. intros i x _. simpl.
      rewrite Ha, Hchain, Hctx1, Hchans1, !length_app. simpl.
      repeat (match goal with |- (_, _) = (_, _) => f_equal end); lia.
    + rewrite (filter_cons_False (λ m, groupID m = nt)) by done.
      rewrite (StartRound_notarize_skip _ _ _ Hne) in Hrun.
      destruct (IH st0 st') as (Hclk' & Hnil' & Hcons'); [congruence|done|].
      rewrite Hn0, Hw0, Hs0 in *. done.
Qed.

End RoundStartMore.

Section RoundStartTheorems.
Context `{Collaborators}.

Lemma StartRound_Normal_inv n w round n' w' eff :
  _StartRound n w round = Normal (n', w', eff) → ∃ c, chains w !! chain n = Some c.
Proof.
  unfold _StartRound. destruct (chains w !! chain n) as [c|]; [eauto|discriminate].
Qed.

Lemma StartRound_loop_no_notary c bp nt ms : ∀ st,
  filter (λ m, groupID m = nt) ms = [] →
  ∃ st', StartRound_loop c bp nt ms st = Normal st'.
Proof.
  induction ms as [|m ms IH]; intros st Hnil; simpl; [by eexists|].
  destruct (decide (groupID m = nt)) as [Heq|Hne].
  - by rewrite (filter_cons_True (λ m, groupID m = nt)) in Hnil by done.
  - rewrite (filter_cons_False (λ m, groupID m = nt)) in Hnil by done.
    rewrite (StartRound_notarize_skip _ _ _ Hne).
    unfold mbind, outcome_bind, Go.bind. by apply IH.
Qed.

Lemma StartRound_loop_bad_key c bp nt ms err : ∀ st,
  SK_Get (sk (rs_node st)) = inr err →
  filter (λ m, groupID m = nt) ms ≠ [] →
  StartRound_loop c bp nt ms st = Panics (PanicError err).
Proof.
  induction ms as [|m ms IH]; intros st Hget Hcons; simpl; [done|].
  destruct (StartRound_propose_frame c bp m st) as (Hn0 & _).
  cbv zeta in Hn0.
  destruct (decide (groupID m = nt)) as [Heq|Hne].
  - rewrite (StartRound_notarize_bad_key _ _ _ err Heq); [done|by rewrite Hn0].
  - rewrite (filter_cons_False (λ m, groupID m = nt)) in Hcons by done.
    rewrite (StartRound_notarize_skip _ _ _ Hne).
    unfold mbind, outcome_bind, Go.bind. apply IH; [by rewrite Hn0|done].
Qed.

Lemma StartRound_shape n w round c n' w' eff :
  chains w !! chain n = Some c →
  _StartRound n w round = Normal (n', w', eff) →
  let nts := members_of (Committees c round).2 n in
  (notarizeChs n' = notarizeChs n ++ seq (length (chans w)) (length nts)
   ∧ chans w' = chans w ++ replicate (length nts) fresh_chan
   ∧ same_identity n n' ∧ chains w' = chains w ∧ clock w' = clock w)
  ∧ (nts = [] →
       cancelNotarize n' = cancelNotarize n ∧ ctxs w' = ctxs w
       ∧ notaries_spawned (spawned eff) = [])
  ∧ (nts ≠ [] →
       ∃ key, SK_Get (sk n) = inl key
         ∧ cancelNotarize n' = Some (length (ctxs w))
         ∧ ctxs w' = ctxs w ++ cancel_ctx :: replicate (length nts) (deadline_ctx w n)
         ∧ notaries_spawned (spawned eff)
           = imap (λ i m, (NewNotary (addr n) key (skShare m) (chain n),
                           S (length (ctxs w) + i), length (ctxs w),
                           (length (chans w) + i)%nat)) nts).
Proof.
  intros Hc Hrun. rewrite (StartRound_unfold _ _ _ _ Hc) in Hrun.
  destruct (StartRound_loop _ _ _ _ _) as [st|p] eqn:Hloop; [|discriminate].
  inversion Hrun; subst; clear Hrun.
  destruct (StartRound_loop_spec _ _ _ _ _ _ Hloop) as (Hid & Hchains & _ & _ & Hchans & Hchs).
  pose proof (λ Hn, StartRound_loop_notaries_None _ _ _ _ _ _ Hn Hloop) as Hnot.
  destruct (Hnot eq_refl) as (Hclock & Hnil & Hcons). clear Hnot.
  simpl in *. split; [done|]. split; [done|].
  intros Hne. destruct (Hcons Hne) as ((key & Hkey) & Hcn & Hctx & Hnot).
  exists key. by rewrite (Hnot key Hkey).
Qed.

(** X1.  [_StartRound] keeps the notary input channels the node already
    had and appends one new channel for each local membership in the notary
    committee, in order; the new channels are empty and of capacity 20, the
    channels that existed keep their queues, and the node's address,
    configuration, key, network, chain and memberships, the chains and the
    clock stay as they were. *)
Theorem StartRound_appends_channels n w round c n' w' eff :
  chains w !! chain n = Some c →
  _StartRound n w round = Normal (n', w', eff) →
  let k := length (members_of (Committees c round).2 n) in
  notarizeChs n' = notarizeChs n ++ seq (length (chans w)) k
  ∧ chans w' = chans w ++ replicate k fresh_chan
  ∧ same_identity n n' ∧ chains w' = chains w ∧ clock w' = clock w.
Proof. intros Hc Hrun. by destruct (StartRound_shape _ _ _ _ _ _ _ Hc Hrun). Qed.

(** X2.  When the node has no membership in the notary committee of the
    round, [_StartRound] makes no context, spawns no notarization and
    leaves [cancelNotarize] as it was, be it nil or the cancel function of
    an earlier round.  Otherwise the node key is retrieved, one shared
    cancel context is made and becomes [cancelNotarize], and the [i]-th
    notary membership gets a goroutine with its own notary, its own context
    with deadline [time.Now() + BlockTime], the shared context, and the
    [i]-th of the new channels. *)
Theorem StartRound_notaries n w round c n' w' eff :
  chains w !! chain n = Some c →
  _StartRound n w round = Normal (n', w', eff) →
  let nts := members_of (Committees c round).2 n in
  (nts = [] →
     cancelNotarize n' = cancelNotarize n ∧ ctxs w' = ctxs w
     ∧ notaries_spawned (spawned eff) = [])
  ∧ (nts ≠ [] →
       ∃ key, SK_Get (sk n) = inl key
         ∧ cancelNotarize n' = Some (length (ctxs w))
         ∧ ctxs w' = ctxs w ++ cancel_ctx :: replicate (length nts) (deadline_ctx w n)
         ∧ notaries_spawned (spawned eff)
           = imap (λ i m, (NewNotary (addr n) key (skShare m) (chain n),
                           S (length (ctxs w) + i), length (ctxs w),
                           (length (chans w) + i)%nat)) nts).
Proof.
  intros Hc Hrun. by destruct (StartRound_shape _ _ _ _ _ _ _ Hc Hrun) as (_ & ? & ?).
Qed.

(** X3.  The node key is only retrieved for a notary membership: with no
    membership in the notary committee [_StartRound] returns whatever the
    key is, and with one and a key that cannot be retrieved it panics with
    the error of [sk.Get()]. *)
Theorem StartRound_key_failure n w round c :
  chains w !! chain n = Some c →
  let nts := members_of (Committees c round).2 n in
  (nts = [] → ∃ n' w' eff, _StartRound n w round = Normal (n', w', eff))
  ∧ (∀ err, SK_Get (sk n) = inr err → nts ≠ [] →
       _StartRound n w round = Panics (PanicError err)).
Proof.
  intros Hc. rewrite (StartRound_unfold _ _ _ _ Hc). split.
  - intros Hnil. edestruct (StartRound_loop_no_notary c) as [st ->]; [exact Hnil|].
    by eexists _, _, _.
  - intros err Hget Hcons. by rewrite (StartRound_loop_bad_key _ _ _ _ err).
Qed.

End RoundStartTheorems.

Lemma StartRound_appends_channels_witness :
  ∃ n' w' eff, _StartRound Sample.node Sample.world_full 0 = Normal (n', w', eff)
    ∧ notarizeChs n' = [2%nat]
    ∧ chans w' = chans Sample.world_full ++ [fresh_chan].
Proof.
  eexists _, _, _. split; [reflexivity|].
  destruct (StartRound_appends_channels Sample.node Sample.world_full 0 [] _ _ _
              eq_refl eq_refl) as (Hchs & Hchans & _).
  split; [exact Hchs|exact Hchans].
Defined.

Lemma StartRound_notaries_witness :
  ∃ n' w' eff, _StartRound Sample.node Sample.world0 0 = Normal (n', w', eff)
    ∧ cancelNotarize n' = Some 0%nat
    ∧ length (ctxs w') = 2%nat.
Proof.
  eexists _, _, _. split; [reflexivity|].
  destruct (StartRound_notaries Sample.node Sample.world0 0 [] _ _ _ eq_refl eq_refl)
    as (_ & Hcons).
  destruct Hcons as (key & _ & Hcn & Hctx & _); [discriminate|].
  split; [exact Hcn|]. by rewrite Hctx.
Defined.

Lemma StartRound_key_failure_witness :
  (∃ n' w' eff, _StartRound Sample.node_bad_key_no_notary Sample.world0 0
                = Normal (n', w', eff))
  ∧ _StartRound Sample.node_bad_key Sample.world0 0
    = Panics (PanicError "malformed secret key").
Proof.
  split.
  - by apply (StartRound_key_failure Sample.node_bad_key_no_notary Sample.world0 0 []).
  - by apply (StartRound_key_failure Sample.node_bad_key Sample.world0 0 []).
Defined.

Section RoutingMore.
Context `{Collaborators}.

(** ** Queues of proposals *)

Lemma send_inv ch bp w w' :
  send ch bp w = Some w' →
  ∃ c, chans w !! ch = Some c ∧ (length (ch_buf c) < ch_cap c)%nat
    ∧ w' = set_chans w
             (<[ch := {| ch_cap := ch_cap c; ch_buf := ch_buf c ++ [bp] |}]> (chans w)).
Proof.
  unfold send. destruct (chans w !! ch) as [c|] eqn:Hc; [|done].
  destruct (decide (length (ch_buf c) < ch_cap c)%nat) as [Hlt|]; [|done].
  intros [= <-]. by exists c.
Qed.

Lemma chan_eta (c : chan) : {| ch_cap := ch_cap c; ch_buf := ch_buf c |} = c.
Proof. by destruct c. Qed.

Lemma RecvBlockProposal_loop_appends bp chs : ∀ w,
  let w' := delivery_world (RecvBlockProposal_loop bp chs w) in
  buffers_only w w'
  ∧ (bounded w → bounded w')
  ∧ ∀ i c, chans w !! i = Some c →
      ∃ j, chans w' !! i
           = Some {| ch_cap := ch_cap c; ch_buf := ch_buf c ++ replicate j bp |}.
Proof.
  induction chs as [|ch chs IH]; intros w; simpl.
  - split; [|split; [done|]].
    + repeat split. intros i c Hc. by exists c.
    + intros i c Hc. exists 0%nat. simpl. by rewrite app_nil_r, chan_eta.
  - destruct (send ch bp w) as [w1|] eqn:Hsend; simpl.
    + destruct (send_inv _ _ _ _ Hsend) as (c0 & Hc0 & Hlt & ->).
      set (w1 := set_chans w _) in *.
      destruct (IH w1) as ((Hchains & Hctxs & Hclock & Hlen & Hcaps) & Hbounded & Happ).
      cbv zeta in *.
      assert (∀ i c, chans w !! i = Some c → ∃ j,
                chans (delivery_world (RecvBlockProposal_loop bp chs w1)) !! i
                = Some {| ch_cap := ch_cap c; ch_buf := ch_buf c ++ replicate j bp |})
        as Happ'.
      { intros i c Hc. destruct (decide (i = ch)) as [->|Hne].
        - assert (c = c0) as -> by congruence.
          destruct (Happ ch {| ch_cap := ch_cap c0; ch_buf := ch_buf c0 ++ [bp] |})
            as [j Hj].
          { simpl. apply list_lookup_insert_eq. by eapply lookup_lt_Some. }
          exists (S j). rewrite Hj. simpl. by rewrite <- app_assoc.
        - apply Happ. simpl. by rewrite list_lookup_insert_ne. }
      split; [|split; [|done]].
      * repeat split; try done.
        -- rewrite Hlen. simpl. by rewrite length_insert.
        -- intros i c Hc. destruct (Happ' i c Hc) as [j Hj]. eexists. split; [exact Hj|done].
      * intros Hb. apply Hbounded. intros i c. simpl.
        intros Hi. apply list_lookup_insert_Some in Hi
          as [(-> & <- & _)|(Hne & Hi)]; [|by eapply Hb].
        simpl. rewrite length_app. simpl. lia.
    + split; [|split; [done|]].
      * repeat split. intros i c Hc. by exists c.
      * intros i c Hc. exists 0%nat. simpl. by rewrite app_nil_r, chan_eta.
Qed.

Lemma RecvBlockProposal_loop_app bp l1 l2 : ∀ w,
  RecvBlockProposal_loop bp (l1 ++ l2) w
  = match RecvBlockProposal_loop bp l1 w with
    | Returned w1 => RecvBlockProposal_loop bp l2 w1
    | Blocked ch rest w1 => Blocked ch (rest ++ l2) w1
    end.
Proof.
  induction l1 as [|a l1 IH]; intros w; simpl; [done|].
  destruct (send a bp w) as [w1|]; [apply IH|done].
Qed.

Lemma RecvBlockProposal_loop_Returned_room bp chs : ∀ w w',
  RecvBlockProposal_loop bp chs w = Returned w' → NoDup chs →
  ∀ ch, ch ∈ chs → has_room ch w.
Proof.
  induction chs as [|a chs IH]; intros w w' Hrun Hnd ch Hch; simpl in Hrun.
  - by apply elem_of_nil in Hch.
  - apply NoDup_cons in Hnd as [Hfresh Hnd].
    destruct (send a bp w) as [w1|] eqn:Hsend; [|discriminate].
    apply elem_of_cons in Hch as [->|Hch]; [by eapply send_has_room|].
    destruct (IH _ _ Hrun Hnd ch Hch) as (c & Hc & Hlt).
    destruct (send_inv _ _ _ _ Hsend) as (c0 & _ & _ & ->).
    exists c. split; [|done]. simpl in Hc.
    rewrite list_lookup_insert_ne in Hc; [done|]. by intros ->.
Qed.

(** X4.  Whether it returns or comes to stay at a full channel,
    [RecvBlockProposal] has only appended copies of the proposal to
    buffers: what was queued stays queued in its order, capacities, the
    number of channels, the chains, the contexts and the clock are as
    before, and no buffer is filled beyond its capacity. *)
Theorem RecvBlockProposal_only_appends n w bp :
  let w' := delivery_world (RecvBlockProposal n w bp) in
  buffers_only w w'
  ∧ (bounded w → bounded w')
  ∧ ∀ i c, chans w !! i = Some c →
      ∃ j, chans w' !! i
           = Some {| ch_cap := ch_cap c; ch_buf := ch_buf c ++ replicate j bp |}.
Proof. apply RecvBlockProposal_loop_appends. Qed.

(** X5.  When [RecvBlockProposal] comes to stay at a full channel, the
    channels before it in the list have the proposal already, at the end
    of their queues, and every other channel is as it was. *)
Theorem RecvBlockProposal_partial_delivery n w bp pre ch post :
  notarizeChs n = pre ++ ch :: post → NoDup (notarizeChs n) →
  (∀ x, x ∈ pre → has_room x w) → ¬ has_room ch w →
  ∃ w', RecvBlockProposal n w bp = Blocked ch post w'
    ∧ (∀ x c, x ∈ pre → chans w !! x = Some c →
         chans w' !! x = Some {| ch_cap := ch_cap c; ch_buf := ch_buf c ++ [bp] |})
    ∧ (∀ x, x ∉ pre → chans w' !! x = chans w !! x).
Proof.
  unfold RecvBlockProposal. intros -> Hnd Hroom Hfull.
  apply NoDup_app in Hnd as (Hpre & Hdisj & Hrest).
  rewrite RecvBlockProposal_loop_app.
  destruct (RecvBlockProposal_loop_room bp pre w Hpre Hroom) as (w1 & -> & Hsent & Hother).
  assert (ch ∉ pre) as Hch.
  { intros Hin. apply (Hdisj ch Hin). apply list_elem_of_here. }
  simpl. rewrite send_None.
  - by exists w1.
  - intros (c & Hc & Hlt). apply Hfull. exists c. by rewrite <- Hother.
Qed.

(** X6.  A call that stays at a full channel goes on as soon as the
    notary of that channel takes one proposal: the notary gets the oldest
    one, and the send then puts the new proposal at the end of the queue. *)
Theorem blocked_send_resumes bp (reading : nat → Prop) ch rest w c :
  chans w !! ch = Some c → length (ch_buf c) = ch_cap c → (0 < ch_cap c)%nat →
  reading ch →
  ∃ p w1 w2, head (ch_buf c) = Some p
    ∧ receive ch w = Some (p, w1)
    ∧ send ch bp w1 = Some w2
    ∧ chans w2 !! ch = Some {| ch_cap := ch_cap c; ch_buf := tail (ch_buf c) ++ [bp] |}
    ∧ rtc (recv_step bp reading) (ch :: rest, w) (rest, w2).
Proof.
  intros Hc Hlen Hcap Hreading.
  destruct c as [cap [|p buf]]; simpl in *; [lia|].
  assert (ch < length (chans w))%nat as Hlt by (by eapply lookup_lt_Some).
  set (w1 := set_chans w (<[ch := {| ch_cap := cap; ch_buf := buf |}]> (chans w))).
  assert (receive ch w = Some (p, w1)) as Hrecv by (unfold receive; by rewrite Hc).
  assert (chans w1 !! ch = Some {| ch_cap := cap; ch_buf := buf |}) as Hc1.
  { simpl. by apply list_lookup_insert_eq. }
  assert (send ch bp w1
          = Some (set_chans w1 (<[ch := {| ch_cap := cap; ch_buf := buf ++ [bp] |}]>
                                  (chans w1)))) as Hsend.
  { rewrite (send_Some _ _ _ _ Hc1); [done|]. simpl. lia. }
  eexists p, w1, _. split; [done|]. split; [done|]. split; [exact Hsend|]. split.
  - simpl. apply list_lookup_insert_eq. by rewrite length_insert.
  - eapply rtc_l; [by eapply step_receive|]. apply rtc_once. by apply step_send.
Qed.

Lemma run_calls_proposals bps : ∀ n w,
  NoDup (notarizeChs n) →
  (∀ ch, ch ∈ notarizeChs n →
     ∃ c, chans w !! ch = Some c ∧ (length (ch_buf c) ≤ ch_cap c)%nat) →
  ((∀ ch c, ch ∈ notarizeChs n → chans w !! ch = Some c →
      (length (ch_buf c) + length bps ≤ ch_cap c)%nat) →
     ∃ w', run_calls (DoRecvBlockProposal <$> bps) n w = Some (n, w')
       ∧ (∀ ch c, ch ∈ notarizeChs n → chans w !! ch = Some c →
            chans w' !! ch = Some {| ch_cap := ch_cap c; ch_buf := ch_buf c ++ bps |})
       ∧ (∀ ch, ch ∉ notarizeChs n → chans w' !! ch = chans w !! ch))
  ∧ ((∃ ch c, ch ∈ notarizeChs n ∧ chans w !! ch = Some c
        ∧ (ch_cap c < length (ch_buf c) + length bps)%nat) →
     run_calls (DoRecvBlockProposal <$> bps) n w = None).
Proof.
  induction bps as [|bp bps IH]; intros n w Hnd Hex; simpl.
  - split.
    + intros _. exists w. split; [done|]. split; [|done].
      intros ch c _ Hc. by rewrite app_nil_r, chan_eta.
    + intros (ch & c & Hch & Hc & Hlt). destruct (Hex ch Hch) as (c' & Hc' & Hle).
      assert (c' = c) as -> by congruence. lia.
  - unfold RecvBlockProposal.
    destruct (RecvBlockProposal_loop bp (notarizeChs n) w) as [w1|a rest w1] eqn:Hrun.
    + pose proof (RecvBlockProposal_loop_Returned_room _ _ _ _ Hrun Hnd) as Hroom.
      destruct (RecvBlockProposal_loop_room bp _ w Hnd Hroom) as (w1' & Hrun' & Hsent & Hother).
      assert (w1' = w1) as -> by congruence.
      assert (∀ ch, ch ∈ notarizeChs n →
                ∃ c, chans w1 !! ch = Some c ∧ (length (ch_buf c) ≤ ch_cap c)%nat) as Hex1.
      { intros ch Hch. destruct (Hroom ch Hch) as (c & Hc & Hlt).
        eexists. split; [by apply Hsent|]. simpl. rewrite length_app. simpl. lia. }
      destruct (IH n w1 Hnd Hex1) as [IHok IHfull]. split.
      * intros Hfit. destruct IHok as (w' & Hcalls & Hqueued & Hrest).
        { intros ch c1 Hch Hc1. destruct (Hroom ch Hch) as (c & Hc & Hlt).
          rewrite (Hsent _ _ Hch Hc) in Hc1. inversion Hc1; subst; clear Hc1. simpl.
          specialize (Hfit _ _ Hch Hc). rewrite length_app. simpl in *. lia. }
        exists w'. split; [done|]. split.
        -- intros ch c Hch Hc. rewrite (Hqueued _ _ Hch (Hsent _ _ Hch Hc)). simpl.
           by rewrite <- app_assoc.
        -- intros ch Hch. rewrite Hrest by done. by apply Hother.
      * intros (ch & c & Hch & Hc & Hlt). apply IHfull.
        eexists ch, _. split; [done|]. split; [by apply Hsent|].
        simpl. rewrite length_app. simpl in *. lia.
    + split; [|done]. intros Hfit.
      assert (∀ ch, ch ∈ notarizeChs n → has_room ch w) as Hroom.
      { intros ch Hch. destruct (Hex ch Hch) as (c & Hc & _).
        exists c. split; [done|]. specialize (Hfit _ _ Hch Hc). simpl in Hfit. lia. }
      destruct (RecvBlockProposal_loop_room bp _ w Hnd Hroom) as (w1' & Hrun' & _).
      congruence.
Qed.

(** X7.  Proposals that reach the node one after the other, with no
    notary reading meanwhile, are queued in every notary input channel in
    the order of their arrival, behind what was queued before, as long as
    they fit; if they do not all fit into some channel, one of the calls
    does not return. *)
Theorem proposals_queue_in_order bps n w :
  NoDup (notarizeChs n) →
  (∀ ch, ch ∈ notarizeChs n →
     ∃ c, chans w !! ch = Some c ∧ (length (ch_buf c) ≤ ch_cap c)%nat) →
  ((∀ ch c, ch ∈ notarizeChs n → chans w !! ch = Some c →
      (length (ch_buf c) + length bps ≤ ch_cap c)%nat) →
     ∃ w', run_calls (DoRecvBlockProposal <$> bps) n w = Some (n, w')
       ∧ (∀ ch c, ch ∈ notarizeChs n → chans w !! ch = Some c →
            chans w' !! ch = Some {| ch_cap := ch_cap c; ch_buf := ch_buf c ++ bps |})
       ∧ (∀ ch, ch ∉ notarizeChs n → chans w' !! ch = chans w !! ch))
  ∧ ((∃ ch c, ch ∈ notarizeChs n ∧ chans w !! ch = Some c
        ∧ (ch_cap c < length (ch_buf c) + length bps)%nat) →
     run_calls (DoRecvBlockProposal <$> bps) n w = None).
Proof. apply run_calls_proposals. Qed.

End RoutingMore.

Section RoundsCompose.
Context `{Collaborators}.

(** ** A round from its start to its end *)

(** X8.  [EndRound] after a [_StartRound] that has returned does not
    panic and leaves the node without notary input channels.  For every
    notarization goroutine of that round, the shared cancel context it was
    given is then done, while its own deadline context is not touched and
    its input channel, no longer in the node's list, still exists with
    what it holds. *)
Theorem StartRound_then_EndRound n w round round' n1 w1 e1 :
  _StartRound n w round = Normal (n1, w1, e1) →
  ∃ n2 w2 e2, EndRound n1 w1 round' = Normal (n2, w2, e2)
    ∧ notarizeChs n2 = []
    ∧ ∀ notary ctx ntCancelCtx inCh,
        (notary, ctx, ntCancelCtx, inCh) ∈ notaries_spawned (spawned e1) →
        cancelNotarize n1 = Some ntCancelCtx
        ∧ ctxs w1 !! ntCancelCtx = Some cancel_ctx
        ∧ ctxs w2 !! ntCancelCtx = Some (mark_done cancel_ctx)
        ∧ ctx ≠ ntCancelCtx
        ∧ ctxs w2 !! ctx = Some (deadline_ctx w n)
        ∧ chans w2 !! inCh = Some fresh_chan.
Proof.
  intros Hrun. destruct (StartRound_Normal_inv _ _ _ _ _ _ Hrun) as [c Hc].
  destruct (StartRound_shape _ _ _ _ _ _ _ Hc Hrun)
    as ((Hchs & Hchans & Hid & Hchains & Hclock) & Hnil & Hcons).
  cbv zeta in *. destruct Hid as (_ & _ & _ & _ & Hchain & _).
  assert (chains w1 !! chain n1 = Some c) as Hc1 by (by rewrite Hchains, Hchain).
  rewrite (EndRound_unfold _ _ _ _ Hc1). eexists _, _, _. split; [reflexivity|].
  split; [done|]. intros notary ctx l inCh Hin.
  destruct (decide (members_of (Committees c round).2 n = [])) as [Hempty|Hne].
  { destruct (Hnil Hempty) as (_ & _ & Hnone). rewrite Hnone in Hin.
    by apply elem_of_nil in Hin. }
  destruct (Hcons Hne) as (key & _ & Hcn & Hctx & Hnot).
  rewrite Hnot in Hin. apply elem_of_lookup_imap in Hin as (i & m & Heq & Hi).
  inversion Heq; subst; clear Heq. apply lookup_lt_Some in Hi.
  rewrite Hcn.
  destruct (cancel_frame (length (ctxs w)) w1) as (_ & Hsame & _ & _ & Hother & Hself).
  assert (ctxs w1 !! length (ctxs w) = Some cancel_ctx) as Hshared.
  { rewrite Hctx. by rewrite list_lookup_middle. }
  split; [done|]. split; [done|]. split; [by apply Hself|]. split; [lia|]. split.
  - rewrite Hother by lia. rewrite Hctx.
    rewrite (lookup_app_r (ctxs w)) by lia.
    replace (S (length (ctxs w) + i) - length (ctxs w))%nat with (S i) by lia.
    simpl. by apply lookup_replicate_2.
  - rewrite Hsame, Hchans. rewrite lookup_app_r by lia.
    replace (length (chans w) + i - length (chans w))%nat with i by lia.
    by apply lookup_replicate_2.
Qed.

(** X9.  After a [_StartRound] of a node that had no notary input channel,
    up to twenty proposals are accepted without any notary reading, and
    each channel of the round then holds them in the order they came; with
    more than twenty, and a membership in the notary committee, one of the
    calls of [RecvBlockProposal] does not return. *)
Theorem round_holds_twenty_proposals n w round n' w' eff bps :
  notarizeChs n = [] →
  _StartRound n w round = Normal (n', w', eff) →
  ((length bps ≤ 20)%nat →
     ∃ w2, run_calls (DoRecvBlockProposal <$> bps) n' w' = Some (n', w2)
       ∧ ∀ ch, ch ∈ notarizeChs n' →
           chans w2 !! ch = Some {| ch_cap := 20; ch_buf := bps |})
  ∧ ((20 < length bps)%nat → notarizeChs n' ≠ [] →
     run_calls (DoRecvBlockProposal <$> bps) n' w' = None).
Proof.
  intros Hnone Hrun. destruct (StartRound_Normal_inv _ _ _ _ _ _ Hrun) as [c Hc].
  destruct (StartRound_shape _ _ _ _ _ _ _ Hc Hrun) as ((Hchs & Hchans & _) & _).
  cbv zeta in *. rewrite Hnone in Hchs. simpl in Hchs.
  assert (∀ ch, ch ∈ notarizeChs n' → chans w' !! ch = Some fresh_chan) as Hfresh.
  { intros ch Hch. rewrite Hchs in Hch. apply list_elem_of_lookup in Hch as [i Hi].
    apply lookup_seq in Hi as [-> Hi]. rewrite Hchans, lookup_app_r by lia.
    replace (length (chans w) + i - length (chans w))%nat with i by lia.
    by apply lookup_replicate_2. }
  destruct (run_calls_proposals bps n' w') as [Hok Hfull].
  { rewrite Hchs. apply NoDup_seq. }
  { intros ch Hch. exists fresh_chan. split; [by apply Hfresh|]. simpl. lia. }
  split.
  - intros Hlen. destruct Hok as (w2 & Hcalls & Hqueued & _).
    { intros ch c0 Hch Hc0. rewrite (Hfresh ch Hch) in Hc0. inversion Hc0; subst.
      simpl. unfold notarizeChCap. lia. }
    exists w2. split; [done|]. intros ch Hch.
    by rewrite (Hqueued ch fresh_chan Hch (Hfresh ch Hch)).
  - intros Hlen Hne. apply Hfull.
    destruct (notarizeChs n') as [|ch chs] eqn:Hlist; [done|].
    exists ch, fresh_chan. split; [apply list_elem_of_here|].
    split; [apply Hfresh, list_elem_of_here|]. simpl. unfold notarizeChCap. lia.
Qed.

End RoundsCompose.

Section Invariants.
Context `{Collaborators}.

(** ** What every call keeps *)

Lemma buffers_only_refl w : buffers_only w w.
Proof. repeat split. intros i c Hc. by exists c. Qed.

Lemma receive_frame ch w p w' :
  receive ch w = Some (p, w') → buffers_only w w' ∧ (bounded w → bounded w').
Proof.
  unfold receive. destruct (chans w !! ch) as [c|] eqn:Hc; [|done].
  destruct (ch_buf c) as [|q buf] eqn:Hbuf; [done|]. intros [= _ <-]. split.
  - repeat split; simpl; [by rewrite length_insert|].
    intros i c0 Hc0. destruct (decide (i = ch)) as [->|Hne].
    + eexists. split; [apply list_lookup_insert_eq; by eapply lookup_lt_Some|].
      simpl. congruence.
    + exists c0. by rewrite list_lookup_insert_ne.
  - intros Hb i c0. simpl. intros Hi.
    apply list_lookup_insert_Some in Hi as [(-> & <- & _)|(Hne & Hi)]; [|by eapply Hb].
    simpl. specialize (Hb _ _ Hc). rewrite Hbuf in Hb. simpl in Hb. lia.
Qed.

Lemma wf_buffers_only n w w' :
  wf_node n w → buffers_only w w' → (bounded w → bounded w') → wf_node n w'.
Proof.
  intros (Hchain & Hnd & Hchs & Hcancel & Hb) (Hchains & Hctxs & _ & _ & Hcaps) Hb'.
  split; [by rewrite Hchains|]. split; [done|]. split; [|split; [|by apply Hb']].
  - intros ch Hch. destruct (Hchs ch Hch) as (c & Hc & Hcap).
    destruct (Hcaps ch c Hc) as (c' & Hc' & Hcap'). exists c'. split; [done|congruence].
  - intros l Hl. rewrite Hctxs. by apply Hcancel.
Qed.

Lemma wf_StartRound n w round n' w' eff :
  wf_node n w → _StartRound n w round = Normal (n', w', eff) → wf_node n' w'.
Proof.
  intros (Hchain & Hnd & Hchs & Hcancel & Hb) Hrun.
  destruct (StartRound_Normal_inv _ _ _ _ _ _ Hrun) as [c Hc].
  destruct (StartRound_shape _ _ _ _ _ _ _ Hc Hrun)
    as ((Hchs' & Hchans & Hid & Hchains & _) & Hnil & Hcons).
  cbv zeta in *. destruct Hid as (_ & _ & _ & _ & Hchain' & _).
  set (k := length (members_of (Committees c round).2 n)) in *.
  split; [by rewrite Hchain', Hchains|]. split; [|split; [|split]].
  - rewrite Hchs'. apply NoDup_app. split; [done|]. split; [|apply NoDup_seq].
    intros ch Hch Hseq. destruct (Hchs ch Hch) as (c0 & Hc0 & _).
    apply lookup_lt_Some in Hc0. apply list_elem_of_lookup in Hseq as [i Hi].
    apply lookup_seq in Hi. lia.
  - intros ch Hch. rewrite Hchs' in Hch. rewrite Hchans.
    apply elem_of_app in Hch as [Hch|Hch].
    + destruct (Hchs ch Hch) as (c0 & Hc0 & Hcap). exists c0.
      split; [by apply lookup_app_l_Some|done].
    + apply list_elem_of_lookup in Hch as [i Hi]. apply lookup_seq in Hi as [-> Hi].
      exists fresh_chan. split; [|done]. rewrite lookup_app_r by lia.
      replace (length (chans w) + i - length (chans w))%nat with i by lia.
      by apply lookup_replicate_2.
  - intros l Hl.
    destruct (decide (members_of (Committees c round).2 n = [])) as [Hempty|Hne].
    + destruct (Hnil Hempty) as (Hcn & -> & _). apply Hcancel. congruence.
    + destruct (Hcons Hne) as (key & _ & Hcn & -> & _).
      rewrite length_app. simpl. assert (l = length (ctxs w)) by congruence. lia.
  - intros i c0. rewrite Hchans. intros Hi.
    apply lookup_app_Some in Hi as [Hi|[_ Hi]]; [by eapply Hb|].
    apply lookup_replicate_1 in Hi as [-> _]. simpl. lia.
Qed.

Lemma wf_EndRound n w round n' w' eff :
  wf_node n w → EndRound n w round = Normal (n', w', eff) → wf_node n' w'.
Proof.
  intros (Hchain & Hnd & Hchs & Hcancel & Hb) Hrun.
  destruct (EndRound_Normal_inv _ _ _ _ _ _ Hrun) as [c Hc].
  rewrite (EndRound_unfold _ _ _ _ Hc) in Hrun. inversion Hrun; subst; clear Hrun.
  destruct (cancelNotarize n) as [l|] eqn:Hl.
  - destruct (cancel_frame l w) as (Hchains & Hchans & _ & Hlen & _).
    split; [exact Hchain|]. split; [apply NoDup_nil_2|].
    split; [intros ch Hch; by apply elem_of_nil in Hch|]. split.
    + intros l'. cbn [cancelNotarize set_notarizeChs]. rewrite Hl, Hlen. apply Hcancel.
    + intros i c0. rewrite Hchans. apply Hb.
  - split; [done|]. split; [apply NoDup_nil_2|].
    split; [intros ch Hch; by apply elem_of_nil in Hch|]. split; [|done].
    intros l'. simpl. rewrite Hl. apply Hcancel.
Qed.

Lemma wf_run_call call n w n' w' :
  wf_node n w → run_call call n w = Some (n', w') → wf_node n' w'.
Proof.
  intros Hwf. destruct call as [round|round|bp|a b|t|ch]; simpl.
  - destruct (_StartRound n w round) as [[[n1 w1] e1]|p] eqn:Hrun; [|done].
    intros [= <- <-]. by eapply wf_StartRound.
  - destruct (EndRound n w round) as [[[n1 w1] e1]|p] eqn:Hrun; [|done].
    intros [= <- <-]. by eapply wf_EndRound.
  - destruct (RecvBlockProposal n w bp) as [w1|a rest w1] eqn:Hrun; [|done].
    intros [= <- <-].
    destruct (RecvBlockProposal_loop_appends bp (notarizeChs n) w) as (Hbo & Hb & _).
    cbv zeta in *. unfold RecvBlockProposal in Hrun. rewrite Hrun in *.
    by eapply wf_buffers_only.
  - by intros [= <- <-].
  - by intros [= <- <-].
  - destruct (receive ch w) as [[p w1]|] eqn:Hrecv; intros [= <- <-]; [|done].
    destruct (receive_frame _ _ _ _ Hrecv). by eapply wf_buffers_only.
Qed.

(** X10.  Every call that returns, and every proposal a notary takes,
    leaves the node in a good state: its chain exists, its notary input
    channels are distinct, exist and have capacity 20, its cancel function
    belongs to an existing context, and no buffer holds more than its
    capacity. *)
Theorem node_invariant cs : ∀ n w n' w',
  wf_node n w → run_calls cs n w = Some (n', w') → wf_node n' w'.
Proof.
  induction cs as [|call cs IH]; intros n w n' w' Hwf; simpl.
  - by intros [= <- <-].
  - destruct (run_call call n w) as [[n1 w1]|] eqn:Hcall; [|done].
    apply IH. by eapply wf_run_call.
Qed.

Lemma run_call_frame call n w n' w' :
  run_call call n w = Some (n', w') →
  same_identity n n' ∧ chains w' = chains w ∧ clock w' = clock w
  ∧ (length (chans w) ≤ length (chans w'))%nat
  ∧ (length (ctxs w) ≤ length (ctxs w'))%nat.
Proof.
  destruct call as [round|round|bp|a b|t|ch]; simpl.
  - destruct (_StartRound n w round) as [[[n1 w1] e1]|p] eqn:Hrun; [|done].
    intros [= <- <-]. destruct (StartRound_Normal_inv _ _ _ _ _ _ Hrun) as [c Hc].
    destruct (StartRound_shape _ _ _ _ _ _ _ Hc Hrun)
      as ((_ & Hchans & Hid & Hchains & Hclock) & Hnil & Hcons).
    cbv zeta in *. split; [done|]. split; [done|]. split; [done|].
    split; [rewrite Hchans, length_app; lia|].
    destruct (decide (members_of (Committees c round).2 n = [])) as [Hempty|Hne].
    + by destruct (Hnil Hempty) as (_ & -> & _).
    + destruct (Hcons Hne) as (key & _ & _ & -> & _). rewrite length_app. lia.
  - destruct (EndRound n w round) as [[[n1 w1] e1]|p] eqn:Hrun; [|done].
    intros [= <- <-]. destruct (EndRound_Normal_inv _ _ _ _ _ _ Hrun) as [c Hc].
    rewrite (EndRound_unfold _ _ _ _ Hc) in Hrun. inversion Hrun; subst; clear Hrun.
    split; [done|]. destruct (cancelNotarize n) as [l|]; [|done].
    destruct (cancel_frame l w) as (-> & -> & -> & -> & _). done.
  - destruct (RecvBlockProposal n w bp) as [w1|a rest w1] eqn:Hrun; [|done].
    intros [= <- <-].
    destruct (RecvBlockProposal_loop_appends bp (notarizeChs n) w)
      as ((Hchains & Hctxs & Hclock & Hlen & _) & _).
    cbv zeta in *. unfold RecvBlockProposal in Hrun. rewrite Hrun in *. simpl in *.
    split; [done|]. rewrite Hchains, Hctxs, Hclock, Hlen. done.
  - by intros [= <- <-].
  - by intros [= <- <-].
  - destruct (receive ch w) as [[p w1]|] eqn:Hrecv; intros [= <- <-]; [|done].
    destruct (receive_frame _ _ _ _ Hrecv) as ((Hchains & Hctxs & Hclock & Hlen & _) & _).
    split; [done|]. rewrite Hchains, Hctxs, Hclock, Hlen. done.
Qed.

(** X11.  No sequence of calls changes the address, the configuration,
    the key, the network, the chain reference or the memberships of the
    node, nor the chains or the clock; channels and contexts are only ever
    added.  So [Chain()] always returns the same chain, and [Start] and
    [SendTxn] always reach the same networking layer. *)
Theorem calls_keep_identity cs : ∀ n w n' w',
  run_calls cs n w = Some (n', w') →
  same_identity n n' ∧ chains w' = chains w ∧ clock w' = clock w
  ∧ (length (chans w) ≤ length (chans w'))%nat
  ∧ (length (ctxs w) ≤ length (ctxs w'))%nat
  ∧ Node_Chain n' = Node_Chain n
  ∧ (∀ t, SendTxn n' t = SendTxn n t)
  ∧ (∀ myAddr seedAddr, Start n' myAddr seedAddr = Start n myAddr seedAddr).
Proof.
  induction cs as [|call cs IH]; intros n w n' w'; simpl.
  - intros [= <- <-]. done.
  - destruct (run_call call n w) as [[n1 w1]|] eqn:Hcall; [|done].
    intros Hrest.
    destruct (run_call_frame _ _ _ _ _ Hcall)
      as ((Ha & Hcfg & Hsk & Hnet & Hchain & Hms) & Hchains & Hclock & Hlen & Hlen').
    destruct (IH _ _ _ _ Hrest)
      as ((Ha2 & Hcfg2 & Hsk2 & Hnet2 & Hchain2 & Hms2) & Hchains2 & Hclock2 & Hlen2
          & Hlen2' & _).
    unfold same_identity, Node_Chain, SendTxn, Start.
    repeat split; try congruence; try lia; intros; congruence.
Qed.

End Invariants.

Section StartupMore.
Context `{Collaborators}.

(** ** The node [MakeNode] returns *)

Lemma MakeNode_Normal_inv credentials net0 config genesis state txnPool u w n w' :
  MakeNode credentials net0 config genesis state txnPool u w = Normal (n, w') →
  ∃ pk ms,
    SK_PK (cred_SK credentials) = inl pk
    ∧ MakeNode_loop (GroupShares credentials) 0 (Groups credentials) [] = Normal ms
    ∧ n = {| addr := PK_Addr pk; cfg := config; sk := cred_SK credentials;
             net := NewNetworking net0 (length (chains w)); chain := length (chains w);
             memberships := ms; notarizeChs := []; cancelNotarize := None |}
    ∧ w' = {| chains := chains w
                        ++ [NewChain genesis state (Rand (SHA3 dex_bytes)) config txnPool u];
              chans := chans w; ctxs := ctxs w; clock := clock w |}.
Proof.
  rewrite MakeNode_unfold. cbv zeta.
  destruct (SK_PK (cred_SK credentials)) as [pk|err]; [|discriminate].
  destruct (MakeNode_loop _ _ _ _) as [ms|p]; [|discriminate].
  intros [= <- <-]. by exists pk, ms.
Qed.

(** X12.  The node [MakeNode] returns has no notary input channel and no
    cancel function, holds the key and the configuration it was given and
    the address of that key, and refers to a chain made for it, which
    [MakeNode] adds to the world without touching anything else; its
    networking layer is built on that chain.  It is in a good state, and a
    proposal it receives before its first round goes to nobody. *)
Theorem MakeNode_fresh_node credentials net0 config genesis state txnPool u w n w' :
  MakeNode credentials net0 config genesis state txnPool u w = Normal (n, w') →
  (notarizeChs n = [] ∧ cancelNotarize n = None ∧ sk n = cred_SK credentials
   ∧ cfg n = config
   ∧ (∃ pk, SK_PK (cred_SK credentials) = inl pk ∧ addr n = PK_Addr pk)
   ∧ Node_Chain n = length (chains w)
   ∧ net n = NewNetworking net0 (Node_Chain n))
  ∧ (chains w' = chains w
                 ++ [NewChain genesis state (Rand (SHA3 dex_bytes)) config txnPool u]
     ∧ chans w' = chans w ∧ ctxs w' = ctxs w ∧ clock w' = clock w)
  ∧ chains w' !! Node_Chain n
    = Some (NewChain genesis state (Rand (SHA3 dex_bytes)) config txnPool u)
  ∧ (bounded w → wf_node n w')
  ∧ (∀ bp, RecvBlockProposal n w' bp = Returned w').
Proof.
  intros Hrun. destruct (MakeNode_Normal_inv _ _ _ _ _ _ _ _ _ _ Hrun)
    as (pk & ms & Hpk & _ & -> & ->).
  unfold Node_Chain. simpl. split; [|split; [done|split; [|split; [|done]]]].
  - repeat split; try done. by exists pk.
  - by rewrite list_lookup_middle.
  - intros Hb. split; [simpl; rewrite length_app; simpl; lia|].
    split; [apply NoDup_nil_2|]. split; [|split; [done|exact Hb]].
    intros ch Hch. by apply elem_of_nil in Hch.
Qed.

Lemma MakeNode_loop_take shares rest : ∀ j ms k,
  (j + length rest ≤ k)%nat →
  MakeNode_loop (take k shares) j rest ms = MakeNode_loop shares j rest ms.
Proof.
  induction rest as [|g rest IH]; intros j ms k Hk; simpl in *; [done|].
  rewrite lookup_take_lt by lia.
  destruct (shares !! j) as [s|] eqn:Hs.
  - destruct (SK_Get s) as [share|err]; [|done]. apply IH. lia.
  - apply lookup_ge_None in Hs. by rewrite take_ge by lia.
Qed.

(** X13.  [MakeNode] looks at no more shares than there are groups: the
    shares beyond the number of groups are not retrieved, and whether they
    could be makes no difference to the outcome. *)
Theorem MakeNode_surplus_shares credentials net0 config genesis state txnPool u w :
  MakeNode credentials net0 config genesis state txnPool u w
  = MakeNode {| cred_SK := cred_SK credentials; Groups := Groups credentials;
                GroupShares := take (length (Groups credentials))
                                 (GroupShares credentials) |}
      net0 config genesis state txnPool u w.
Proof.
  rewrite !MakeNode_unfold. cbv zeta. simpl.
  by rewrite MakeNode_loop_take by (simpl; lia).
Qed.

Lemma MakeNode_loop_first_bad shares rest : ∀ j ms i s err,
  (i < length rest)%nat → shares !! (j + i)%nat = Some s → SK_Get s = inr err →
  (∀ i' s', (i' < i)%nat → shares !! (j + i')%nat = Some s' →
            ∃ share, SK_Get s' = inl share) →
  MakeNode_loop shares j rest ms = Panics (PanicError err).
Proof.
  induction rest as [|g rest IH]; intros j ms i s err Hi Hs Hget Hok; simpl in *; [lia|].
  destruct i as [|i].
  - rewrite Nat.add_0_r in Hs. by rewrite Hs, Hget.
  - destruct (lookup_lt_is_Some_2 shares j) as [s0 Hs0].
    { apply lookup_lt_Some in Hs. lia. }
    rewrite Hs0. destruct (Hok 0%nat s0) as [share ->]; [lia|by rewrite Nat.add_0_r|].
    apply (IH (S j) _ i s err); [lia|by rewrite Nat.add_succ_comm|done|].
    intros i' s' Hi' Hs'. apply (Hok (S i') s'); [lia|by rewrite <- Nat.add_succ_comm].
Qed.

(** X14.  With a node key that has a public key, [MakeNode] panics with
    the error of the first group share, in the order of the groups, that
    cannot be retrieved. *)
Theorem MakeNode_first_bad_share credentials net0 config genesis state txnPool u w
    pk j s err :
  SK_PK (cred_SK credentials) = inl pk →
  (j < length (Groups credentials))%nat →
  GroupShares credentials !! j = Some s → SK_Get s = inr err →
  (∀ i s', (i < j)%nat → GroupShares credentials !! i = Some s' →
           ∃ share, SK_Get s' = inl share) →
  MakeNode credentials net0 config genesis state txnPool u w = Panics (PanicError err).
Proof.
  intros Hpk Hj Hs Hget Hok. rewrite MakeNode_unfold. cbv zeta. rewrite Hpk.
  by rewrite (MakeNode_loop_first_bad _ _ 0 [] j s err).
Qed.

(** X15.  The first [EndRound] of a node fresh from [MakeNode] returns and
    cancels nothing, and the key shares its signing goroutines carry are
    exactly the shares of the credentials whose group, at the same index,
    is the random-beacon committee of the round. *)
Theorem MakeNode_then_EndRound credentials net0 config genesis state txnPool u w n w'
    round :
  MakeNode credentials net0 config genesis state txnPool u w = Normal (n, w') →
  let rb := (Committees (NewChain genesis state (Rand (SHA3 dex_bytes)) config txnPool u)
               round).1.1 in
  ∃ eff, EndRound n w' round = Normal (n, w', eff)
    ∧ calls eff = [CallCommittees round]
    ∧ ∀ keyShare, GoRandBeaconShare keyShare round ∈ spawned eff ↔
        ∃ j s, Groups credentials !! j = Some rb
          ∧ GroupShares credentials !! j = Some s ∧ SK_Get s = inl keyShare.
Proof.
  intros Hrun. destruct (MakeNode_Normal_inv _ _ _ _ _ _ _ _ _ _ Hrun)
    as (pk & ms & Hpk & Hloop & -> & ->). cbv zeta.
  set (c := NewChain _ _ _ _ _ _).
  erewrite EndRound_unfold; [|simpl; by rewrite list_lookup_middle].
  simpl. eexists. split; [reflexivity|]. simpl. split; [done|].
  destruct (MakeNode_loop_Normal _ _ _ _ _ Hloop) as (added & -> & Hlen & Hadded).
  simpl. intros keyShare. rewrite EndRound_loop_filter, list_elem_of_fmap. split.
  - intros (m & Heq & Hm). inversion Heq; subst; clear Heq.
    apply list_elem_of_filter in Hm as [Hrb Hm].
    apply list_elem_of_lookup in Hm as [j Hj].
    destruct (lookup_lt_is_Some_2 (Groups credentials) j) as [g Hg].
    { rewrite <- Hlen. by eapply lookup_lt_Some. }
    destruct (Hadded j g Hg) as (s & share & Hs & Hget & Hm).
    rewrite Hj in Hm. inversion Hm; subst; clear Hm. simpl in *. subst g.
    by exists j, s.
  - intros (j & s & Hg & Hs & Hget).
    destruct (Hadded j _ Hg) as (s' & share & Hs' & Hget' & Hm). simpl in Hs'.
    assert (s' = s) as -> by congruence. assert (share = keyShare) as -> by congruence.
    eexists. split; [|apply list_elem_of_filter; split;
                       [|by eapply list_elem_of_lookup_2]]; done.
Qed.


End StartupMore.

Section StaleCancel.
Context `{Collaborators}.

(** X17.  A round in which the node is in no notary committee keeps the
    cancel function of an earlier round; when that round's context is done
    already, the [EndRound] of the later round calls the cancel function
    once more and the world stays exactly as it is. *)
Theorem stale_cancel_is_harmless n w round round' l x n1 w1 e1 c :
  chains w !! chain n = Some c →
  cancelNotarize n = Some l → ctxs w !! l = Some x → ctx_done x = true →
  members_of (Committees c round).2 n = [] →
  _StartRound n w round = Normal (n1, w1, e1) →
  ∃ n2 e2, EndRound n1 w1 round' = Normal (n2, w1, e2)
    ∧ cancelNotarize n1 = Some l
    ∧ CallCancel l ∈ calls e2
    ∧ notarizeChs n2 = [].
Proof.
  intros Hc Hl Hx Hdone Hnone Hrun.
  destruct (StartRound_shape _ _ _ _ _ _ _ Hc Hrun)
    as ((_ & _ & Hid & Hchains & _) & Hnil & _).
  cbv zeta in *. destruct (Hnil Hnone) as (Hcn & Hctxs & _).
  destruct Hid as (_ & _ & _ & _ & Hchain & _).
  assert (chains w1 !! chain n1 = Some c) as Hc1 by (by rewrite Hchains, Hchain).
  rewrite (EndRound_unfold _ _ _ _ Hc1), Hcn, Hl.
  rewrite (cancel_done l w1 x) by (by rewrite ?Hctxs).
  eexists _, _. split; [reflexivity|]. split; [done|]. split; [|done].
  simpl. apply list_elem_of_here.
Qed.

End StaleCancel.

Lemma RecvBlockProposal_only_appends_witness :
  bounded (delivery_world
             (RecvBlockProposal Sample.node_two_chs Sample.world_full
                Sample.bp3)).
Proof.
  apply (RecvBlockProposal_only_appends Sample.node_two_chs Sample.world_full
           Sample.bp3).
  intros [|[|i]] c Hc; inversion Hc; subst; vm_compute; lia.
Defined.

Lemma RecvBlockProposal_partial_delivery_witness :
  ∃ w', RecvBlockProposal (set_notarizeChs Sample.node [1%nat; 0%nat]) Sample.world_full
          Sample.bp3
        = Blocked 0%nat [] w'
    ∧ chans w' !! 1%nat = Some {| ch_cap := 20; ch_buf := [Sample.bp3] |}.
Proof.
  destruct (RecvBlockProposal_partial_delivery (set_notarizeChs Sample.node [1%nat; 0%nat])
              Sample.world_full Sample.bp3
              [1%nat] 0%nat []) as (w' & Hrun & Hsent & _).
  - reflexivity.
  - apply NoDup_cons. split; [|apply NoDup_singleton].
    intros Hin. by apply list_elem_of_singleton in Hin.
  - intros x Hx. apply list_elem_of_singleton in Hx as ->.
    exists Sample.empty_chan. split; [done|]. vm_compute. lia.
  - intros (c & Hc & Hlt). inversion Hc; subst. vm_compute in Hlt. lia.
  - exists w'. split; [done|].
    apply (Hsent 1%nat Sample.empty_chan); [apply list_elem_of_here|reflexivity].
Defined.

Lemma blocked_send_resumes_witness :
  ∃ w2, rtc (recv_step Sample.bp3 (λ _, True))
          ([0%nat; 1%nat], Sample.world_full) ([1%nat], w2).
Proof.
  destruct (blocked_send_resumes Sample.bp3
              (λ _, True) 0%nat [1%nat] Sample.world_full Sample.full_chan)
    as (p & w1 & w2 & _ & _ & _ & _ & Hsteps).
  - reflexivity.
  - reflexivity.
  - vm_compute. lia.
  - exact I.
  - by exists w2.
Defined.

Lemma proposals_queue_in_order_witness :
  ∃ w', run_calls [DoRecvBlockProposal Sample.bp3;
                   DoRecvBlockProposal Sample.bp4]
          (set_notarizeChs Sample.node [1%nat]) Sample.world_full
        = Some (set_notarizeChs Sample.node [1%nat], w')
    ∧ chans w' !! 1%nat = Some {| ch_cap := 20; ch_buf := [Sample.bp3; Sample.bp4] |}.
Proof.
  destruct (proposals_queue_in_order
              [Sample.bp3; Sample.bp4]
              (set_notarizeChs Sample.node [1%nat]) Sample.world_full) as [Hok _].
  - apply NoDup_singleton.
  - intros ch Hch. apply list_elem_of_singleton in Hch as ->.
    exists Sample.empty_chan. split; [done|]. vm_compute. lia.
  - destruct Hok as (w' & Hrun & Hqueued & _).
    + intros ch c Hch Hc. apply list_elem_of_singleton in Hch as ->.
      inversion Hc; subst. vm_compute. lia.
    + exists w'. split; [exact Hrun|].
      apply (Hqueued 1%nat Sample.empty_chan); [apply list_elem_of_here|reflexivity].
Defined.

Lemma StartRound_then_EndRound_witness :
  ∃ n1 w1 e1 n2 w2 e2,
    _StartRound Sample.node Sample.world0 0 = Normal (n1, w1, e1)
    ∧ EndRound n1 w1 7 = Normal (n2, w2, e2)
    ∧ ctxs w2 !! 0%nat = Some (mark_done cancel_ctx).
Proof.
  eexists _, _, _.
  destruct (StartRound_then_EndRound Sample.node Sample.world0 0 7 _ _ _ eq_refl)
    as (n2 & w2 & e2 & Hrun & _ & Hnot).
  exists n2, w2, e2. split; [reflexivity|]. split; [exact Hrun|].
  apply (Hnot (tt : @Notary _ Sample.collaborators) 1%nat 0%nat 0%nat).
  apply list_elem_of_here.
Defined.

Lemma round_holds_twenty_proposals_witness :
  ∃ n' w' eff w2,
    _StartRound Sample.node Sample.world0 0 = Normal (n', w', eff)
    ∧ run_calls [DoRecvBlockProposal Sample.bp3] n' w'
      = Some (n', w2)
    ∧ run_calls (DoRecvBlockProposal
                   <$> replicate 21 Sample.bp3) n' w'
      = None.
Proof.
  eexists _, _, _.
  destruct (round_holds_twenty_proposals Sample.node Sample.world0 0 _ _ _
              [Sample.bp3] eq_refl eq_refl)
    as [Hok _].
  destruct Hok as (w2 & Hrun & _); [simpl; lia|].
  exists w2. split; [reflexivity|]. split; [exact Hrun|].
  apply (round_holds_twenty_proposals Sample.node Sample.world0 0 _ _ _
           (replicate 21 Sample.bp3) eq_refl eq_refl).
  - rewrite length_replicate. lia.
  - discriminate.
Defined.

Lemma sample_node_wf : wf_node Sample.node Sample.world0.
Proof.
  split; [simpl; lia|]. split; [apply NoDup_nil_2|].
  split; [intros ch Hch; by apply elem_of_nil in Hch|].
  split; [discriminate|]. intros i c Hc. by destruct i.
Defined.

Lemma node_invariant_witness :
  ∃ n' w', run_calls [DoStartRound 0;
                      DoRecvBlockProposal Sample.bp3;
                      NotaryReceives 0%nat; DoSendTxn [1]; DoEndRound 0]
             Sample.node Sample.world0 = Some (n', w')
    ∧ wf_node n' w'.
Proof.
  eexists _, _. split; [vm_compute; reflexivity|].
  eapply (node_invariant [DoStartRound 0; DoRecvBlockProposal Sample.bp3;
                          NotaryReceives 0%nat; DoSendTxn [1]; DoEndRound 0]
            Sample.node Sample.world0); [exact sample_node_wf|reflexivity].
Defined.

Lemma calls_keep_identity_witness :
  ∃ n' w', run_calls [DoStartRound 0;
                      DoRecvBlockProposal Sample.bp3;
                      DoEndRound 0; DoStart "a" "b"]
             Sample.node Sample.world0 = Some (n', w')
    ∧ memberships n' = memberships Sample.node
    ∧ Node_Chain n' = 0%nat.
Proof.
  eexists _, _. split; [vm_compute; reflexivity|].
  edestruct (calls_keep_identity [DoStartRound 0; DoRecvBlockProposal Sample.bp3;
                                  DoEndRound 0; DoStart "a" "b"]
               Sample.node Sample.world0)
    as ((_ & _ & _ & _ & _ & Hms) & _ & _ & _ & _ & Hchain & _); [reflexivity|].
  split; [exact Hms|exact Hchain].
Defined.

Lemma MakeNode_fresh_node_witness :
  ∃ n w', MakeNode (H0 := Sample.collaborators) Sample.credentials tt Sample.config
            tt tt tt tt Sample.world0 = Normal (n, w')
    ∧ notarizeChs n = [] ∧ wf_node n w'.
Proof.
  eexists _, _. split; [reflexivity|].
  edestruct (MakeNode_fresh_node (H0 := Sample.collaborators) Sample.credentials tt
               Sample.config tt tt tt tt Sample.world0)
    as ((Hnil & _) & _ & _ & Hwf & _); [reflexivity|].
  split; [exact Hnil|]. apply Hwf. intros i c Hc. by destruct i.
Defined.

Lemma MakeNode_first_bad_share_witness :
  MakeNode (H0 := Sample.collaborators) Sample.credentials_bad_share tt Sample.config
    tt tt tt tt Sample.world0
  = Panics (PanicError "malformed secret key").
Proof.
  eapply (MakeNode_first_bad_share (H0 := Sample.collaborators)
            Sample.credentials_bad_share tt Sample.config tt tt tt tt Sample.world0
            _ 1%nat).
  - reflexivity.
  - simpl. lia.
  - reflexivity.
  - reflexivity.
  - intros [|i] s' Hi Hs'; [|lia]. inversion Hs'; subst. by eexists.
Defined.

Lemma MakeNode_then_EndRound_witness :
  ∃ n w' eff, MakeNode (H0 := Sample.collaborators) Sample.credentials tt Sample.config
                tt tt tt tt Sample.world0 = Normal (n, w')
    ∧ EndRound n w' 0 = Normal (n, w', eff)
    ∧ GoRandBeaconShare (7 : @SecretKey Sample.keys) 0 ∈ spawned eff.
Proof.
  eexists _, _.
  edestruct (MakeNode_then_EndRound (H0 := Sample.collaborators) Sample.credentials tt
               Sample.config tt tt tt tt Sample.world0 _ _ 0 eq_refl)
    as (eff & Hrun & _ & Hshares).
  exists eff. split; [reflexivity|]. split; [exact Hrun|].
  apply Hshares. exists 0%nat. eexists. split; [reflexivity|]. split; reflexivity.
Defined.


Lemma stale_cancel_is_harmless_witness :
  ∃ n2 e2, EndRound Sample.node_stale Sample.world_done 1
           = Normal (n2, Sample.world_done, e2).
Proof.
  destruct (stale_cancel_is_harmless Sample.node_stale Sample.world_done 0 1 0%nat
              (mark_done cancel_ctx) _ _ _ [] eq_refl eq_refl eq_refl eq_refl eq_refl
              eq_refl)
    as (n2 & e2 & Hrun & _).
  by exists n2, e2.
Defined.
